(** * Recommendation backend (app.py): topic-overlap ranking and activity store

    A shallow embedding of the business logic of [app.py]: the topic-overlap
    scorer, the history boost of [/recommend], the activity recorder
    ([record_user_topics], [get_user_topic_counts], [record_completion]) and
    the handlers [/complete], [/next-topic] and [/admin/popular].

    Modelling conventions.
    - A Python [str] is a [string]; a character is a code point below 256
      (the Latin-1 range), on which [str.strip] and [str.lower] are written
      out below.
    - A Python [set] of strings is a [gset string]; a [dict] keyed by strings
      is a [gmap string _]. Where the code iterates a dict or a set it sorts
      the outcome by a key that is injective on the entries, so the iteration
      order cannot be observed (lemma [py_sorted_perm_invariant]).
    - [list.sort(key=...)] and [sorted(..., key=...)] are stable sorts; they
      are modelled by a stable insertion sort on the key order.
    - The activity file is the state that is threaded through the handlers:
      [load_activity] reads it, [save_activity] replaces it. *)

From Stdlib Require Import ZArith Ascii String List Sorting.Sorted Permutation.
From stdpp Require Import base decidable list sorting gmap strings fin_maps fin_sets.

#[local] Set Warnings "-clear-no-such-hyp".

Local Open Scope string_scope.
Local Open Scope Z_scope.

(** ** Python strings *)

(** [c.isspace()] for a code point below 256: TAB..CR, FS..US, SPACE, NEL
    and NBSP. *)
Definition is_space (c : ascii) : bool :=
  let n := N_of_ascii c in
  ((9 <=? n) && (n <=? 13) || (28 <=? n) && (n <=? 32)
   || (n =? 133) || (n =? 160))%N.

(** [c.lower()] for a code point below 256: A..Z and the capital letters
    of the Latin-1 block (U+00C0..U+00DE but the multiplication sign U+00D7)
    move up by 32; every other code point is left as it is. *)
Definition lower_char (c : ascii) : ascii :=
  let n := N_of_ascii c in
  if ((65 <=? n) && (n <=? 90)
      || (192 <=? n) && (n <=? 222) && negb (n =? 215))%N
  then ascii_of_N (n + 32) else c.

(** [s.lower()] *)
Fixpoint lower (s : string) : string :=
  match s with
  | EmptyString => EmptyString
  | String c s' => String (lower_char c) (lower s')
  end.

(** [s.lstrip()] *)
Fixpoint lstrip (s : string) : string :=
  match s with
  | EmptyString => EmptyString
  | String c s' => if is_space c then lstrip s' else s
  end.

(** [s.rstrip()] *)
Fixpoint rstrip (s : string) : string :=
  match s with
  | EmptyString => EmptyString
  | String c s' =>
      match rstrip s' with
      | EmptyString => if is_space c then EmptyString else String c EmptyString
      | r => String c r
      end
  end.

(** [s.strip()] *)
Definition strip (s : string) : string := rstrip (lstrip s).

(** What [lstrip] leaves does not start with a space, and [rstrip] keeps
    it so. *)
Definition no_leading_space (s : string) : Prop :=
  match s with EmptyString => True | String c _ => is_space c = false end.

(** Truth value of a string: [bool(s)]. *)
Definition nonempty (s : string) : bool :=
  match s with EmptyString => false | String _ _ => true end.

(** ** JSON values, as [json.loads] and [request.get_json] produce them

    A number is an integer; the code looks at the type and at the truth
    value of a number and at nothing else. *)

#[local] Set Warnings "-register-all".
Inductive json : Type :=
| JNull
| JBool (b : bool)
| JInt (n : Z)
| JStr (s : string)
| JList (l : list json)
| JDict (d : list (string * json)).

(** Python truth value of a JSON value: [None], [False], [0], the empty
    string, list and dict are false. *)
Definition truthy (v : json) : bool :=
  match v with
  | JNull => false
  | JBool b => b
  | JInt n => negb (n =? 0)
  | JStr s => nonempty s
  | JList l => match l with [] => false | _ => true end
  | JDict d => match d with [] => false | _ => true end
  end.

(** ** Sorting by a key *)

(** The keys of the three sorts of the program are pairs of an integer and
    a string; Python compares tuples lexicographically, integers by value
    and strings by code point. *)
Definition key_leb (k1 k2 : Z * string) : bool :=
  if fst k1 =? fst k2 then String.leb (snd k1) (snd k2) else fst k1 <? fst k2.

Definition key_le (k1 k2 : Z * string) : Prop := key_leb k1 k2 = true.

Section py_sort.
Context {A : Type} (key : A → Z * string).

Fixpoint insert_by (x : A) (l : list A) : list A :=
  match l with
  | [] => [x]
  | y :: l' => if key_leb (key x) (key y) then x :: l else y :: insert_by x l'
  end.

(** [sorted(l, key=key)]: stable, so an element goes in front of the
    later elements that have the same key. *)
Definition py_sorted (l : list A) : list A := foldr insert_by [] l.
End py_sort.

(** The order in which [py_sorted key] leaves a list. *)
Definition key_order {A : Type} (key : A → Z * string) (x y : A) : Prop :=
  key_le (key x) (key y).

(** ** The catalog and the topic-overlap scorer *)

Record resource : Type := Resource {
  title : string;
  description : string;
  link : string;
  tags : list string
}.

(** An entry of the ranked list: the fields of the resource but [tags],
    and the score. *)
Record item : Type := Item {
  item_title : string;
  item_description : string;
  item_link : string;
  score : Z
}.

Definition SAMPLE_RESOURCES : list resource :=
  [ Resource "Flask Basics" "Learn web development with Flask"
      "https://flask.palletsprojects.com/" ["python"; "web"; "flask"];
    Resource "Django Overview" "Batteries-included web framework"
      "https://www.djangoproject.com/" ["python"; "web"; "django"];
    Resource "Pandas Intro" "Data analysis library"
      "https://pandas.pydata.org/" ["python"; "data"; "pandas"];
    Resource "React Docs" "Build UIs with React"
      "https://react.dev/" ["javascript"; "react"; "frontend"];
    Resource "Node.js Guides" "Server-side JS runtime"
      "https://nodejs.org/en/learn" ["javascript"; "node"; "backend"] ].

(** [t.strip().lower()] when [isinstance(t, str) and t.strip()]. *)
Definition norm_topic (t : json) : option string :=
  match t with
  | JStr s => if nonempty (strip s) then Some (lower (strip s)) else None
  | _ => None
  end.

(** [{t.strip().lower() for t in topics if isinstance(t, str) and t.strip()}] *)
Definition normalized_topics (topics : list json) : gset string :=
  list_to_set (omap norm_topic topics).

(** [{str(tag).lower() for tag in r.get("tags", [])}]; the tags of a
    resource are strings, on which [str] is the identity. *)
Definition tag_set (r : resource) : gset string :=
  list_to_set (lower <$> tags r).

(** [len(tags.intersection(normalized_topics))] *)
Definition overlap (r : resource) (nt : gset string) : Z :=
  Z.of_nat (size (tag_set r ∩ nt)).

(** [{k: v for k, v in r.items() if k != "tags"}] with [item["score"] = s]. *)
Definition item_of (r : resource) (s : Z) : item :=
  Item (title r) (description r) (link r) s.

(** The sort key [(-x["score"], x["title"])]. *)
Definition rank_key (x : item) : Z * string := (- score x, item_title x).

(** The order of the ranked list: [x] is ranked before [y] when its score
    is higher, or the scores are equal and its title is not the greater. *)
Definition rank_before (x y : item) : Prop :=
  score y < score x
  ∨ (score x = score y ∧ String.leb (item_title x) (item_title y) = true).

(** Every earlier entry of the list is ranked before every later one. *)
Definition ranked (l : list item) : Prop :=
  ∀ (i j : nat) x y, (i < j)%nat → l !! i = Some x → l !! j = Some y →
    rank_before x y.

Definition score_one (nt : gset string) (r : resource) : option item :=
  let s := overlap r nt in
  if 0 <? s then Some (item_of r s) else None.

Definition score_resources_by_topics
    (resources : list resource) (topics : list json) : list item :=
  let nt := normalized_topics topics in
  if decide (nt = ∅) then []
  else py_sorted rank_key (omap (score_one nt) resources).

(** ** The activity store *)

(** A user's record in the activity document; a user that is not in the
    document reads as [{'topics': [], 'completed': [], 'points': 0}]. *)
Record user : Type := User {
  topics : list string;
  completed : list string;
  points : Z
}.

Definition new_user : user := User [] [] 0.

(** [data.get(email) or {...}]: a stored record has its three keys, so it
    is never the falsy empty dict. *)
Definition get_user (data : gmap string user) (email : string) : user :=
  default new_user (data !! email).

Definition record_user_topics
    (data : gmap string user) (email : string) (ts : list json)
    : gmap string user :=
  let u := get_user data email in
  <[email := User (topics u ++ omap norm_topic ts) (completed u) (points u)]> data.

(** [counts[t] = counts.get(t, 0) + 1] *)
Definition bump (counts : gmap string Z) (t : string) : gmap string Z :=
  <[t := default 0 (counts !! t) + 1]> counts.

(** How many times [t] is in the list [l]. *)
Definition occurrences (t : string) (l : list string) : nat :=
  length (filter (λ x, x = t) l).

Definition get_user_topic_counts
    (data : gmap string user) (email : string) : gmap string Z :=
  foldl bump ∅ (topics (get_user data email)).

(** The order of strings: lexicographic on the code points. *)
Definition str_le (a b : string) : Prop := String.leb a b = true.

(** [sorted(list(completed))]: strings sort by code point. *)
Definition sorted_strings (l : list string) : list string :=
  py_sorted (λ s, (0, s)) l.

(** Returns the record that was written and the new document. *)
Definition record_completion
    (data : gmap string user) (email title : string) (points_award : Z)
    : user * gmap string user :=
  let u := get_user data email in
  let titles : gset string := list_to_set (completed u) in
  let '(titles', pts) :=
    if decide (title ∈ titles) then (titles, points u)
    else ({[title]} ∪ titles, points u + points_award) in
  let u' := User (topics u) (sorted_strings (elements titles')) pts in
  (u', <[email := u']> data).

(** ** Handlers *)

(** What a handler answers: a JSON body with status 200, status 400 with
    an error message, or status 500 when an exception escapes it. *)
Inductive response (A : Type) : Type :=
| Ok (body : A)
| BadRequest (error : string)
| ServerError.
Arguments Ok {A} body.
Arguments BadRequest {A} error.
Arguments ServerError {A}.

(** [(data.get(k) or '')] as the receiver of [.strip()]: [None] stands for
    the [AttributeError] of a truthy value that is not a string. *)
Definition str_field (data : gmap string json) (k : string) : option string :=
  match data !! k with
  | None => Some ""
  | Some v =>
      if truthy v then match v with JStr s => Some s | _ => None end
      else Some ""
  end.

(** [any(tag in user_counts for tag in tags)] *)
Definition any_tag_in (tags : gset string) (user_counts : gmap string Z) : bool :=
  existsb (λ tag, bool_decide (is_Some (user_counts !! tag))) (elements tags).

(** [bonus = 1 if any(tag in user_counts for tag in tags) else 0] *)
Definition bonus (user_counts : gmap string Z) (r : resource) : Z :=
  if any_tag_in (tag_set r) user_counts then 1 else 0.

(** [base = dict(base)] with [base['score'] = base.get('score', 0) + b]. *)
Definition add_score (b : Z) (base : item) : item :=
  Item (item_title base) (item_description base) (item_link base)
    (score base + b).

(** One round of the boost loop: the first entry of [recs] that has the
    title of [r], when there is one, with its bonus added. *)
Definition boost_one
    (recs : list item) (user_counts : gmap string Z) (r : resource)
    : option item :=
  match find (λ x, String.eqb (item_title x) (title r)) recs with
  | Some base => Some (add_score (bonus user_counts r) base)
  | None => None
  end.

Definition boost
    (resources : list resource) (recs : list item) (user_counts : gmap string Z)
    : list item :=
  py_sorted rank_key (omap (boost_one recs user_counts) resources).

(** The value of [topics] at the list check: the [topics] field, or the
    single [topic] when [topics] is falsy and [topic] is a string. *)
Definition requested_topics (data : gmap string json) : json :=
  let ts := default (JList []) (data !! "topics") in
  if truthy ts then ts
  else match data !! "topic" with
       | Some (JStr s) => JList [JStr s]
       | _ => ts
       end.

(** [/recommend] from the line [# inputs] on, for a parsed body [data]
    that is a JSON object. The body of the answer is the [recommendations]
    list; the [youtube] list comes from an external service and is left
    out. *)
Definition recommend_on
    (resources : list resource) (data : gmap string json) (st : gmap string user)
    : response (list item) * gmap string user :=
  match str_field data "email" with
  | None => (ServerError, st)
  | Some e =>
      let email := lower (strip e) in
      match requested_topics data with
      | JList ts =>
          let st' := if nonempty email then record_user_topics st email ts else st in
          let user_counts :=
            if nonempty email then get_user_topic_counts st' email else ∅ in
          let recs := score_resources_by_topics resources ts in
          let recs' :=
            if decide (user_counts = ∅) then recs
            else boost resources recs user_counts in
          (Ok recs', st')
      | _ => (BadRequest "topics must be a list", st)
      end
  end.

Definition recommend := recommend_on SAMPLE_RESOURCES.

(** [/complete]: the body of the answer is [(points, completed)]; its
    constant field ['ok': True] is left out. *)
Definition complete (data : gmap string json) (st : gmap string user)
    : response (Z * list string) * gmap string user :=
  match str_field data "email", str_field data "title" with
  | Some e, Some t =>
      let email := lower (strip e) in
      let title := strip t in
      if negb (nonempty email) || negb (nonempty title)
      then (BadRequest "email and title are required", st)
      else
        let '(u, st') := record_completion st email title 10 in
        (Ok (points u, completed u), st')
  | _, _ => (ServerError, st)
  end.

(** The sort key [(kv[1], kv[0])] of [/next-topic]. *)
Definition count_key (kv : string * Z) : Z * string := (kv.2, kv.1).

(** [/next-topic]; [arg] is [request.args.get('email')]. *)
Definition next_topic (arg : option string) (st : gmap string user)
    : response string :=
  let email := lower (strip (default "" arg)) in
  if negb (nonempty email) then BadRequest "email is required"
  else
    let counts := get_user_topic_counts st email in
    if decide (counts = ∅) then Ok "python"
    else match py_sorted count_key (map_to_list counts) with
         | kv :: _ => Ok kv.1
         | [] => ServerError
         end.

(** The sort key [(-x['completed'], x['title'])] of [/admin/popular]. *)
Definition popular_key (tc : string * Z) : Z * string := (- tc.2, tc.1).

Definition count_by_title (data : gmap string user) : gmap string Z :=
  foldl (λ acc eu, foldl bump acc (completed eu.2)) ∅ (map_to_list data).

(** [/admin/popular]: the list of [(title, completed)] entries. *)
Definition admin_popular (st : gmap string user) : list (string * Z) :=
  py_sorted popular_key (map_to_list (count_by_title st)).

(** The order of the entries of [/admin/popular]: the higher count first,
    and at the same count the title that is not the greater. *)
Definition popular_before (x y : string * Z) : Prop :=
  y.2 < x.2 ∨ (x.2 = y.2 ∧ str_le x.1 y.1).

(** The number of users of the document whose completed list has [t]. *)
Definition completions (st : gmap string user) (t : string) : nat :=
  length (filter (λ eu, t ∈ completed eu.2) (map_to_list st)).

(** The titles of the completed lists of a sequence of users, in the order
    in which the counting loops of [/admin/popular] see them. *)
Definition all_completed (l : list (string * user)) : list string :=
  l ≫= (λ eu, completed eu.2).

(** ** Histories of the store *)

(** The two writers of the activity document, as the handlers call them:
    [/recommend] records topics, [/complete] records a completion with the
    default award. *)
Inductive op : Type :=
| RecordTopics (email : string) (ts : list json)
| RecordCompletion (email title : string).

Definition apply_op (st : gmap string user) (o : op) : gmap string user :=
  match o with
  | RecordTopics email ts => record_user_topics st email ts
  | RecordCompletion email title => (record_completion st email title 10).2
  end.

(** The document after a history of writes, from the empty document that
    the start-up code creates. *)
Definition run (ops : list op) : gmap string user := foldl apply_op ∅ ops.

(** The points of a record are 10 for every completed title, and no
    title is completed twice. *)
Definition points_ok (u : user) : Prop :=
  points u = 10 * Z.of_nat (length (completed u)) ∧ NoDup (completed u).

(** ** The other handlers *)

(** [/login]: the body of the answer is the token and the [email] of the
    request as it came. *)
Definition login (data : gmap string json) : response (string * json) :=
  match data !! "email", data !! "password" with
  | Some email, Some password =>
      if negb (truthy email) || negb (truthy password)
      then BadRequest "Missing email or password"
      else Ok ("demo-token", email)
  | _, _ => BadRequest "Missing email or password"
  end.

(** [/summary]; [arg] is [request.args.get('email')]. The body of the
    answer is the record of the user: its points, completed list and
    topics. *)
Definition summary (arg : option string) (st : gmap string user)
    : response user :=
  let email := lower (strip (default "" arg)) in
  if negb (nonempty email) then BadRequest "email is required"
  else Ok (get_user st email).

(** [s.replace(a, b)] for single characters. *)
Fixpoint replace_char (a b : ascii) (s : string) : string :=
  match s with
  | EmptyString => EmptyString
  | String c s' => String (if Ascii.eqb c a then b else c) (replace_char a b s')
  end.

(** [s.split(sep)] for a single character: one piece more than there are
    separators, empty pieces included. *)
Fixpoint split_on (sep : ascii) (s : string) : list string :=
  match s with
  | EmptyString => [EmptyString]
  | String c s' =>
      if Ascii.eqb c sep then EmptyString :: split_on sep s'
      else match split_on sep s' with
           | piece :: rest => String c piece :: rest
           | [] => [String c EmptyString]
           end
  end.

(** [s.endswith(c)] for a single character. *)
Fixpoint ends_with_char (c : ascii) (s : string) : bool :=
  match s with
  | EmptyString => false
  | String x EmptyString => Ascii.eqb x c
  | String _ s' => ends_with_char c s'
  end.

(** [s[:n]] *)
Fixpoint str_take (n : nat) (s : string) : string :=
  match n, s with
  | S n', String c s' => String c (str_take n' s')
  | _, _ => EmptyString
  end.

(** Whether the character [c] is in [s]. *)
Fixpoint has_char (c : ascii) (s : string) : bool :=
  match s with
  | EmptyString => false
  | String x s' => Ascii.eqb x c || has_char c s'
  end.

(** Every character of [s] satisfies [p]. *)
Fixpoint all_chars (p : ascii → bool) (s : string) : bool :=
  match s with
  | EmptyString => true
  | String x s' => p x && all_chars p s'
  end.

(** [s.strip()] when it is not empty: the filter and the map of the list
    comprehension of [/summarize]. *)
Definition sentence_of (s : string) : option string :=
  if nonempty (strip s) then Some (strip s) else None.

(** [[s.strip() for s in text.replace('\n', ' ').split('.') if s.strip()]] *)
Definition sentences (text : string) : list string :=
  omap sentence_of (split_on "." (replace_char "010" " " text)).

(** What every sentence is: not empty, trimmed, without a period and
    without a newline. *)
Definition is_sentence (s : string) : Prop :=
  s ≠ "" ∧ strip s = s ∧ has_char "." s = false ∧ has_char "010" s = false.

(** A period or a white space character. *)
Definition period_or_space (c : ascii) : bool := Ascii.eqb c "." || is_space c.

(** The summary of a trimmed text that is not empty: the first two
    sentences joined, with a period at the end when there is none, or the
    first 160 characters of the text when this is empty. *)
Definition summarize_text (text : string) : string :=
  let summary := String.concat ". " (take 2 (sentences text)) in
  let summary :=
    if nonempty summary && negb (ends_with_char "." summary)
    then summary ++ "." else summary in
  if nonempty summary then summary else str_take 160 text.

(** [/summarize]: the body of the answer is the summary. *)
Definition summarize (data : gmap string json) : response string :=
  match str_field data "text" with
  | None => ServerError
  | Some t =>
      let text := strip t in
      if negb (nonempty text) then BadRequest "text is required"
      else Ok (summarize_text text)
  end.

(** ** Histories of requests *)

(** The two requests that write the activity document. *)
Inductive request : Type :=
| PostRecommend (data : gmap string json)
| PostComplete (data : gmap string json).

(** The document after a request. *)
Definition serve (st : gmap string user) (req : request) : gmap string user :=
  match req with
  | PostRecommend data => (recommend data st).2
  | PostComplete data => (complete data st).2
  end.

(** The document after a sequence of requests, from the empty document. *)
Definition serve_all (reqs : list request) : gmap string user :=
  foldl serve ∅ reqs.

(** A string that is not empty and that trimming leaves as it is. *)
Definition trimmed (s : string) : Prop := s ≠ "" ∧ strip s = s.

(** A string that is not empty and that trimming and lowercasing leave as
    it is: the form of the emails and of the topics in the document. *)
Definition normalised (s : string) : Prop := s ≠ "" ∧ lower (strip s) = s.

(** What holds of every record of a document that the handlers wrote. *)
Definition doc_ok (st : gmap string user) : Prop :=
  ∀ email u, st !! email = Some u →
    normalised email
    ∧ Forall normalised (topics u)
    ∧ Forall trimmed (completed u)
    ∧ points u = 10 * Z.of_nat (length (completed u)).

(** The sum of the counts of a list of counted entries. *)
Definition total_count (l : list (string * Z)) : Z :=
  foldr (λ kv acc, kv.2 + acc) 0 l.

(** The sum of the points of the users of a document. *)
Definition total_points (st : gmap string user) : Z :=
  foldr (λ eu acc, points eu.2 + acc) 0 (map_to_list st).

(** ** Evaluation on small inputs *)

(** A request of an identified caller and a document in which this caller
    has searched "data" before. *)
Definition request_python : gmap string json :=
  {[ "email" := JStr "U@x.io"; "topics" := JList [JStr "python"] ]}.

Definition store_one_user : gmap string user :=
  {[ "u@x.io" := User ["data"] [] 0 ]}.

(** A document in which a user has searched "python" twice and "web"
    once. *)
Definition store_python_web : gmap string user :=
  {[ "u@x.io" := User ["python"; "web"; "python"] [] 0 ]}.

(** A body whose [topics] is a falsy value that is not a list, with a
    single [topic], and a body whose [topics] is a string. *)
Definition request_falsy_topics : gmap string json :=
  {[ "topics" := JStr ""; "topic" := JStr "python" ]}.

Definition request_string_topics : gmap string json :=
  {[ "topics" := JStr "python" ]}.

(** Bodies for [/summarize]: three sentences over two lines, and a text
    of periods and spaces. *)
Definition request_three_sentences : gmap string json :=
  {[ "text" := JStr "  First point.
Second  one. Third.  " ]}.

Definition request_periods : gmap string json :=
  {[ "text" := JStr " . .. " ]}.

(** A body whose email is white space only, with a valid topic. *)
Definition request_blank_email_python : gmap string json :=
  {[ "email" := JStr "  "; "topics" := JList [JStr "python"] ]}.


(** The body of the [/complete] scenario with another spelling of the
    email and a padded title, and a body with a blank email. *)
Definition request_complete_padded : gmap string json :=
  {[ "email" := JStr " A@B.com "; "title" := JStr "  Flask Basics " ]}.

Definition request_blank_email : gmap string json :=
  {[ "email" := JStr "  "; "password" := JStr "x"; "title" := JStr "Flask Basics" ]}.

(** The body of the [/complete] scenario. *)
Definition request_complete : gmap string json :=
  {[ "email" := JStr "a@b.com"; "title" := JStr "Flask Basics" ]}.

Example score_python_data :
  score_resources_by_topics SAMPLE_RESOURCES [JStr "python"; JStr "data"] =
  [ Item "Pandas Intro" "Data analysis library" "https://pandas.pydata.org/" 2;
    Item "Django Overview" "Batteries-included web framework"
      "https://www.djangoproject.com/" 1;
    Item "Flask Basics" "Learn web development with Flask"
      "https://flask.palletsprojects.com/" 1 ].
Proof. vm_compute. reflexivity. Qed.

Example complete_twice_eval :
  let d : gmap string json :=
    {[ "email" := JStr "a@b.com"; "title" := JStr "Flask Basics" ]} in
  let '(r1, st1) := complete d ∅ in
  let '(r2, _) := complete d st1 in
  r1 = Ok (10, ["Flask Basics"]) ∧ r2 = Ok (10, ["Flask Basics"]).
Proof. vm_compute. split; reflexivity. Qed.

Example next_topic_eval :
  next_topic (Some "u@x.io")
    (run [RecordTopics "u@x.io" [JStr "python"; JStr "web"; JStr " Python "]])
  = Ok "web".
Proof. vm_compute. reflexivity. Qed.

Example popular_eval :
  admin_popular (run [RecordCompletion "a@b.com" "Flask Basics";
                      RecordCompletion "c@d.com" "Flask Basics";
                      RecordCompletion "c@d.com" "React Docs"])
  = [("Flask Basics", 2); ("React Docs", 1)].
Proof. vm_compute. reflexivity. Qed.

Example recommend_eval :
  (recommend {[ "email" := JStr "U@x.io"; "topics" := JList [JStr "React"; JInt 3] ]} ∅).1
  = Ok [Item "React Docs" "Build UIs with React" "https://react.dev/" 2].
Proof. vm_compute. reflexivity. Qed.

Example summarize_eval :
  summarize {[ "text" := JStr "  First point.
Second  one. Third.  " ]}
  = Ok "First point. Second  one.".
Proof. vm_compute. reflexivity. Qed.

Example summarize_dots_eval :
  summarize {[ "text" := JStr " . .. " ]} = Ok ". ..".
Proof. vm_compute. reflexivity. Qed.

Example split_on_eval : split_on "." "a.b..c." = ["a"; "b"; ""; "c"; ""].
Proof. reflexivity. Qed.

Example login_eval :
  login {[ "email" := JStr " A@b.com "; "password" := JInt 1 ]}
  = Ok ("demo-token", JStr " A@b.com ").
Proof. vm_compute. reflexivity. Qed.


(** * Properties *)

(** ** Strings *)

Lemma is_space_lower_char c : is_space (lower_char c) = is_space c.
Proof. by destruct c as [[] [] [] [] [] [] [] []]. Qed.

Lemma lower_char_idemp c : lower_char (lower_char c) = lower_char c.
Proof. by destruct c as [[] [] [] [] [] [] [] []]. Qed.

Lemma lower_idemp s : lower (lower s) = lower s.
Proof. induction s as [|c s IH]; simpl; [done|]. by rewrite lower_char_idemp, IH. Qed.

Lemma nonempty_lower s : nonempty (lower s) = nonempty s.
Proof. by destruct s. Qed.

Lemma nonempty_true s : nonempty s = true ↔ s ≠ "".
Proof. destruct s; simpl; split; congruence. Qed.

Lemma lstrip_lower s : lstrip (lower s) = lower (lstrip s).
Proof.
  induction s as [|c s IH]; simpl; [done|].
  rewrite is_space_lower_char. by destruct (is_space c).
Qed.

Lemma rstrip_lower s : rstrip (lower s) = lower (rstrip s).
Proof.
  induction s as [|c s IH]; simpl; [done|].
  rewrite IH, is_space_lower_char.
  destruct (rstrip s); simpl; [|done]. by destruct (is_space c).
Qed.

Lemma strip_lower s : strip (lower s) = lower (strip s).
Proof. unfold strip. by rewrite lstrip_lower, rstrip_lower. Qed.

Lemma rstrip_idemp s : rstrip (rstrip s) = rstrip s.
Proof.
  induction s as [|c s IH]; simpl; [done|].
  destruct (rstrip s) as [|c' r] eqn:E.
  - destruct (is_space c) eqn:Ec; simpl; [done|]. by rewrite Ec.
  - simpl in *. by rewrite IH.
Qed.

Lemma lstrip_no_leading_space s : no_leading_space (lstrip s).
Proof.
  induction s as [|c s IH]; simpl; [done|].
  destruct (is_space c) eqn:Ec; [done|]. exact Ec.
Qed.

Lemma rstrip_no_leading_space s : no_leading_space s → no_leading_space (rstrip s).
Proof.
  destruct s as [|c s]; simpl; [done|]. intros Hc.
  destruct (rstrip s); simpl; [|done]. by rewrite Hc.
Qed.

Lemma lstrip_fixed s : no_leading_space s → lstrip s = s.
Proof. destruct s as [|c s]; simpl; [done|]. by intros ->. Qed.

Lemma strip_idemp s : strip (strip s) = strip s.
Proof.
  unfold strip. rewrite (lstrip_fixed (rstrip (lstrip s))).
  - apply rstrip_idemp.
  - apply rstrip_no_leading_space, lstrip_no_leading_space.
Qed.

(** A normalised topic is a fixed point of the normalisation. *)
Lemma norm_topic_fixed t n : norm_topic t = Some n → norm_topic (JStr n) = Some n.
Proof.
  destruct t as [| | |s| |]; simpl; try done.
  destruct (nonempty (strip s)) eqn:E; [|done]. intros [= <-].
  by rewrite strip_lower, strip_idemp, nonempty_lower, E, lower_idemp.
Qed.

(** ** The order of the sort keys *)

Lemma ascii_compare_refl c : Ascii.compare c c = Eq.
Proof. apply N.compare_refl. Qed.

Lemma string_compare_refl s : String.compare s s = Eq.
Proof. induction s as [|c s IH]; simpl; [done|]. by rewrite ascii_compare_refl. Qed.

Lemma string_compare_lt_trans a b c :
  String.compare a b = Lt → String.compare b c = Lt → String.compare a c = Lt.
Proof.
  revert b c. induction a as [|x a IH]; intros [|y b] [|z c]; simpl; try done.
  unfold Ascii.compare.
  destruct (N.compare_spec (N_of_ascii x) (N_of_ascii y)) as [Exy|Lxy|Gxy]; [| |done];
    destruct (N.compare_spec (N_of_ascii y) (N_of_ascii z)) as [Eyz|Lyz|Gyz]; try done.
  - rewrite Exy, Eyz, N.compare_refl. apply IH.
  - intros _ _. rewrite Exy. by apply N.compare_lt_iff in Lyz as ->.
  - intros _ _. rewrite <-Eyz. by apply N.compare_lt_iff in Lxy as ->.
  - intros _ _. assert (N_of_ascii x < N_of_ascii z)%N as Hlt by lia.
    by apply N.compare_lt_iff in Hlt as ->.
Qed.

Lemma string_leb_refl s : String.leb s s = true.
Proof. unfold String.leb. by rewrite string_compare_refl. Qed.

Lemma string_leb_trans a b c :
  String.leb a b = true → String.leb b c = true → String.leb a c = true.
Proof.
  unfold String.leb.
  destruct (String.compare a b) eqn:Eab; [|  |done];
    destruct (String.compare b c) eqn:Ebc; try done; intros _ _.
  - apply String.compare_eq_iff in Eab as ->. by rewrite Ebc.
  - apply String.compare_eq_iff in Eab as ->. by rewrite Ebc.
  - apply String.compare_eq_iff in Ebc as <-. by rewrite Eab.
  - by rewrite (string_compare_lt_trans a b c).
Qed.

Global Instance key_le_refl : Reflexive key_le.
Proof.
  intros [n s]. unfold key_le, key_leb; simpl.
  rewrite Z.eqb_refl. apply string_leb_refl.
Qed.

Global Instance key_le_trans : Transitive key_le.
Proof.
  intros [n1 s1] [n2 s2] [n3 s3]. unfold key_le, key_leb; simpl.
  destruct (Z.eqb_spec n1 n2) as [->|?], (Z.eqb_spec n2 n3) as [->|?];
    rewrite ?Z.eqb_refl.
  - apply string_leb_trans.
  - intros _ H. destruct (Z.eqb_spec n2 n3); [done|]. done.
  - intros H _. destruct (Z.eqb_spec n1 n3); [done|]. done.
  - intros H1%Z.ltb_lt H2%Z.ltb_lt.
    destruct (Z.eqb_spec n1 n3); [lia|]. apply Z.ltb_lt. lia.
Qed.

Global Instance key_le_total : Total key_le.
Proof.
  intros [n1 s1] [n2 s2]. unfold key_le, key_leb; simpl.
  rewrite (Z.eqb_sym n2 n1).
  destruct (Z.eqb_spec n1 n2) as [->|?]; [apply String.leb_total|].
  rewrite !Z.ltb_lt. lia.
Qed.

Global Instance key_le_antisym : AntiSymm (=) key_le.
Proof.
  intros [n1 s1] [n2 s2]. unfold key_le, key_leb; simpl.
  rewrite (Z.eqb_sym n2 n1).
  destruct (Z.eqb_spec n1 n2) as [->|?].
  - intros H1 H2. f_equal. by apply String.leb_antisym.
  - rewrite !Z.ltb_lt. lia.
Qed.

(** ** The stable sort *)

Section py_sort_props.
Context {A : Type} (key : A → Z * string).

Lemma insert_by_perm x l : insert_by key x l ≡ₚ x :: l.
Proof.
  induction l as [|y l IH]; simpl; [done|].
  destruct (key_leb (key x) (key y)); [done|].
  rewrite IH. apply Permutation_swap.
Qed.

Lemma py_sorted_perm l : py_sorted key l ≡ₚ l.
Proof.
  induction l as [|x l IH]; simpl; [done|].
  unfold py_sorted in *; simpl. by rewrite insert_by_perm, IH.
Qed.

Lemma elem_of_py_sorted x l : x ∈ py_sorted key l ↔ x ∈ l.
Proof. by rewrite py_sorted_perm. Qed.

Lemma insert_by_HdRel a x l :
  key_order key a x → HdRel (key_order key) a l →
  HdRel (key_order key) a (insert_by key x l).
Proof.
  intros Hax Hal. destruct l as [|y l]; simpl; [by constructor|].
  destruct (key_leb (key x) (key y)); constructor; [done|].
  by inversion Hal.
Qed.

Lemma insert_by_Sorted x l :
  Sorted (key_order key) l → Sorted (key_order key) (insert_by key x l).
Proof.
  induction 1 as [|y l Hl IH Hy]; simpl; [by repeat constructor|].
  destruct (key_leb (key x) (key y)) eqn:E.
  - constructor; [by constructor|]. by constructor.
  - constructor; [done|]. apply insert_by_HdRel; [|done].
    destruct (total key_le (key x) (key y)) as [H|H]; [|done].
    unfold key_le in H. congruence.
Qed.

Lemma py_sorted_Sorted l : Sorted (key_order key) (py_sorted key l).
Proof.
  induction l as [|x l IH]; [constructor|]. by apply insert_by_Sorted.
Qed.

Global Instance key_order_trans : Transitive (key_order key).
Proof. intros x y z. unfold key_order. apply key_le_trans. Qed.

Lemma py_sorted_StronglySorted l :
  StronglySorted (key_order key) (py_sorted key l).
Proof. apply Sorted_StronglySorted; [apply _|]. apply py_sorted_Sorted. Qed.

(** When the key tells the entries apart, the outcome does not depend on
    the order in which the entries come in: this is why the iteration
    order of a dict or a set is not part of the model. *)
Lemma py_sorted_perm_invariant l1 l2 :
  (∀ x y, x ∈ l1 → y ∈ l1 → key x = key y → x = y) →
  l1 ≡ₚ l2 → py_sorted key l1 = py_sorted key l2.
Proof.
  intros Hinj Hperm.
  apply (StronglySorted_unique_strong (key_order key)).
  - intros x y Hx Hy Hxy Hyx.
    apply Hinj.
    + by rewrite elem_of_py_sorted in Hx.
    + rewrite elem_of_py_sorted in Hy. by rewrite Hperm.
    + by apply (anti_symm key_le).
  - apply py_sorted_StronglySorted.
  - apply py_sorted_StronglySorted.
  - by rewrite !py_sorted_perm.
Qed.

(** The first entry of the outcome has the least key. *)
Lemma py_sorted_head_least x l' l y :
  py_sorted key l = x :: l' → y ∈ l → key_le (key x) (key y).
Proof.
  intros E Hy. rewrite <-elem_of_py_sorted, E in Hy.
  pose proof (py_sorted_StronglySorted l) as HS. rewrite E in HS.
  apply StronglySorted_cons in HS as [Hall _].
  apply elem_of_cons in Hy as [->|Hy]; [reflexivity|].
  rewrite Forall_forall in Hall. by apply Hall.
Qed.
End py_sort_props.

(** A map that keeps the comparisons of the keys commutes with the sort. *)
Lemma py_sorted_fmap {A B} (key1 : A → Z * string) (key2 : B → Z * string)
    (f : A → B) l :
  (∀ x y, key_leb (key2 (f x)) (key2 (f y)) = key_leb (key1 x) (key1 y)) →
  py_sorted key2 (f <$> l) = f <$> py_sorted key1 l.
Proof.
  intros Hf. induction l as [|x l IH]; [done|].
  change (insert_by key2 (f x) (py_sorted key2 (f <$> l))
          = f <$> insert_by key1 x (py_sorted key1 l)).
  rewrite IH. generalize (py_sorted key1 l) as m.
  induction m as [|y m IHm]; [done|].
  rewrite fmap_cons. cbn [insert_by]. rewrite Hf.
  destruct (key_leb (key1 x) (key1 y)); [done|].
  by rewrite fmap_cons, IHm.
Qed.

(** ** The scorer *)


Lemma overlap_pos r nt : 0 < overlap r nt ↔ tag_set r ∩ nt ≠ ∅.
Proof.
  unfold overlap. split.
  - intros H He. rewrite He, size_empty in H. lia.
  - intros Hne. assert (size (tag_set r ∩ nt) ≠ 0%nat); [|lia].
    apply size_non_empty_iff. by intros ?%leibniz_equiv.
Qed.

Lemma score_one_Some nt r x :
  score_one nt r = Some x ↔ tag_set r ∩ nt ≠ ∅ ∧ x = item_of r (overlap r nt).
Proof.
  unfold score_one. rewrite <-overlap_pos.
  destruct (Z.ltb_spec 0 (overlap r nt)).
  - split; [by intros [= <-]|by intros [_ ->]].
  - split; [done|]. intros [? _]. lia.
Qed.

Lemma score_one_None nt r : score_one nt r = None ↔ tag_set r ∩ nt = ∅.
Proof.
  unfold score_one. destruct (Z.ltb_spec 0 (overlap r nt)) as [H|H].
  - apply overlap_pos in H. naive_solver.
  - split; [intros _|done].
    destruct (decide (tag_set r ∩ nt = ∅)) as [|Hne]; [done|].
    apply overlap_pos in Hne. lia.
Qed.

(** The loop of the scorer keeps the resources that overlap, in the order
    of the catalog. *)
Lemma omap_score_one nt (resources : list resource) :
  omap (score_one nt) resources =
  (λ r, item_of r (overlap r nt)) <$> filter (λ r, tag_set r ∩ nt ≠ ∅) resources.
Proof.
  induction resources as [|r rs IH]; [done|]. cbn [omap list_omap].
  rewrite filter_cons. destruct (decide (tag_set r ∩ nt ≠ ∅)) as [Hne|He].
  - assert (score_one nt r = Some (item_of r (overlap r nt))) as ->
      by by apply score_one_Some.
    rewrite fmap_cons. f_equal. apply IH.
  - assert (score_one nt r = None) as ->.
    { apply score_one_None. by destruct (decide (tag_set r ∩ nt = ∅)). }
    apply IH.
Qed.

Lemma elem_of_tag_set r s :
  s ∈ tag_set r ↔ ∃ tag, tag ∈ tags r ∧ s = lower tag.
Proof.
  unfold tag_set. rewrite elem_of_list_to_set, list_elem_of_fmap.
  split; intros (tag & ? & ?); by exists tag.
Qed.


(** ** The ranking order *)

Lemma key_order_rank_key x y : key_order rank_key x y ↔ rank_before x y.
Proof.
  unfold key_order, key_le, key_leb, rank_key, rank_before; simpl.
  destruct (Z.eqb_spec (- score x) (- score y)) as [E|E].
  - split; [intros H; right; split; [lia|done]|].
    intros [?|[_ ?]]; [lia|done].
  - rewrite Z.ltb_lt. split; [intros ?; left; lia|].
    intros [?|[? _]]; lia.
Qed.

Lemma StronglySorted_lookup {A} (R : relation A) l (i j : nat) x y :
  StronglySorted R l → (i < j)%nat → l !! i = Some x → l !! j = Some y → R x y.
Proof.
  intros HS. revert i j. induction HS as [|a l HS IH Ha]; intros i j Hij Hi Hj.
  { by rewrite lookup_nil in Hi. }
  destruct j as [|j]; [lia|]. destruct i as [|i]; simpl in *.
  - simplify_eq. rewrite Forall_forall in Ha. apply Ha.
    by eapply list_elem_of_lookup_2.
  - apply (IH i j); [lia|done..].
Qed.

Lemma py_sorted_ranked l : ranked (py_sorted rank_key l).
Proof.
  intros i j x y Hij Hi Hj. apply key_order_rank_key.
  eapply (StronglySorted_lookup _ _ i j); [|done..].
  apply py_sorted_StronglySorted.
Qed.

Lemma ranked_nil : ranked [].
Proof. intros i j x y _ Hi. by rewrite lookup_nil in Hi. Qed.

(** ** Scoring depends on the normalised topic set only *)

Lemma score_resources_by_topics_ext resources ts1 ts2 :
  normalized_topics ts1 = normalized_topics ts2 →
  score_resources_by_topics resources ts1 = score_resources_by_topics resources ts2.
Proof. unfold score_resources_by_topics. by intros ->. Qed.

Lemma omap_norm_topic_fixed (nl : list string) :
  Forall (λ n, norm_topic (JStr n) = Some n) nl →
  omap norm_topic (JStr <$> nl) = nl.
Proof.
  induction 1 as [|n nl Hn _ IH]; [done|].
  rewrite fmap_cons. cbn [omap list_omap]. rewrite Hn. f_equal. apply IH.
Qed.

Lemma normalized_topics_fixed (nl : list string) :
  Forall (λ n, norm_topic (JStr n) = Some n) nl →
  normalized_topics (JStr <$> nl) = list_to_set nl.
Proof. intros H. unfold normalized_topics. by rewrite omap_norm_topic_fixed. Qed.

Lemma omap_norm_topic_all_fixed ts :
  Forall (λ n, norm_topic (JStr n) = Some n) (omap norm_topic ts).
Proof.
  apply Forall_forall. intros n (t & _ & Ht)%list_elem_of_omap.
  by eapply norm_topic_fixed.
Qed.

(** C6. Scoring with a topics list equals scoring with its normalised form:
    with the trimmed, lowercased entries in the order of the list, and
    with the deduplicated enumeration of the normalised set; and scoring
    with ["Python", " python "] equals scoring with ["python"]. *)
Theorem scoring_normalization_idempotent :
  (∀ resources ts,
     score_resources_by_topics resources (JStr <$> omap norm_topic ts)
     = score_resources_by_topics resources ts)
  ∧ (∀ resources ts,
       score_resources_by_topics resources
         (JStr <$> elements (normalized_topics ts))
       = score_resources_by_topics resources ts)
  ∧ (∀ resources,
       score_resources_by_topics resources [JStr "Python"; JStr " python "]
       = score_resources_by_topics resources [JStr "python"]).
Proof.
  split; [|split].
  - intros resources ts. apply score_resources_by_topics_ext.
    by rewrite normalized_topics_fixed by apply omap_norm_topic_all_fixed.
  - intros resources ts. apply score_resources_by_topics_ext.
    rewrite normalized_topics_fixed.
    + apply list_to_set_elements_L.
    + apply Forall_forall. intros n Hn%elem_of_elements.
      unfold normalized_topics in Hn. apply elem_of_list_to_set in Hn.
      pose proof (omap_norm_topic_all_fixed ts) as Hall.
      rewrite Forall_forall in Hall. by apply Hall.
  - intros resources. apply score_resources_by_topics_ext.
    unfold normalized_topics. simpl. set_solver.
Qed.

(** ** Frequency counts *)

Lemma occurrences_cons t x l :
  occurrences t (x :: l) = ((if decide (x = t) then 1 else 0) + occurrences t l)%nat.
Proof. unfold occurrences. rewrite filter_cons. by destruct (decide (x = t)). Qed.

Lemma occurrences_pos t l : (0 < occurrences t l)%nat ↔ t ∈ l.
Proof.
  induction l as [|x l IH].
  { rewrite elem_of_nil. unfold occurrences. simpl. lia. }
  rewrite occurrences_cons, elem_of_cons.
  destruct (decide (x = t)) as [->|Hne]; [split; [by left|lia]|].
  rewrite <-IH. split; [intros ?; right; lia|].
  intros [?|?]; [congruence|lia].
Qed.

Lemma bump_lookup m t k :
  bump m t !! k =
  if decide (t = k) then Some (default 0 (m !! t) + 1) else m !! k.
Proof. unfold bump. apply lookup_insert. Qed.

(** The counting loop adds, for every key, its number of occurrences. *)
Lemma foldl_bump_lookup l m k :
  foldl bump m l !! k =
  if decide (k ∈ l) then Some (default 0 (m !! k) + Z.of_nat (occurrences k l))
  else m !! k.
Proof.
  revert m. induction l as [|x l IH]; intros m; [done|].
  cbn [foldl]. rewrite IH, bump_lookup, occurrences_cons.
  assert (k ∉ l → occurrences k l = 0%nat) as Hocc.
  { intros Hin. pose proof (occurrences_pos k l) as H.
    destruct (occurrences k l); [done|]. exfalso. apply Hin, H. lia. }
  destruct (decide (x = k)) as [->|Hne], (decide (k ∈ l)) as [Hin|Hin],
    (decide (k ∈ _ :: l)) as [Hin'|Hin']; simpl;
    try (exfalso; apply Hin'; first [by left | by right]);
    try (apply elem_of_cons in Hin' as [?|?]; [congruence|done]);
    try rewrite (Hocc Hin); try (f_equal; lia); done.
Qed.

Lemma get_user_topic_counts_lookup st email t :
  get_user_topic_counts st email !! t =
  let l := topics (get_user st email) in
  if decide (t ∈ l) then Some (Z.of_nat (occurrences t l)) else None.
Proof.
  unfold get_user_topic_counts. rewrite foldl_bump_lookup, lookup_empty. simpl.
  by destruct (decide _).
Qed.

Lemma dom_get_user_topic_counts st email :
  dom (get_user_topic_counts st email) = list_to_set (topics (get_user st email)).
Proof.
  apply set_eq. intros t.
  rewrite elem_of_dom, get_user_topic_counts_lookup, elem_of_list_to_set. simpl.
  destruct (decide _) as [Hin|Hin]; [by split|].
  split; [by intros [? ?]|done].
Qed.

Lemma get_user_topic_counts_empty st email :
  get_user_topic_counts st email = ∅ ↔ topics (get_user st email) = [].
Proof.
  rewrite <-dom_empty_iff_L, dom_get_user_topic_counts.
  destruct (topics (get_user st email)) as [|t l]; [done|].
  split; [|done]. rewrite list_to_set_cons. set_solver.
Qed.

Lemma get_user_record_user_topics st email ts :
  get_user (record_user_topics st email ts) email =
  User (topics (get_user st email) ++ omap norm_topic ts)
       (completed (get_user st email)) (points (get_user st email)).
Proof.
  unfold record_user_topics. unfold get_user at 1. by rewrite lookup_insert_eq.
Qed.

Lemma any_tag_in_true tags user_counts :
  any_tag_in tags user_counts = true ↔ tags ∩ dom user_counts ≠ ∅.
Proof.
  unfold any_tag_in. rewrite existsb_exists. split.
  - intros (tag & Hin%list_elem_of_In%elem_of_elements & Hs%bool_decide_eq_true).
    apply elem_of_dom in Hs. set_solver.
  - intros (tag & [Hin Hd]%elem_of_intersection)%set_choose_L.
    exists tag. split.
    + by apply list_elem_of_In, elem_of_elements.
    + apply bool_decide_eq_true. by apply elem_of_dom.
Qed.

Lemma bonus_spec user_counts r :
  bonus user_counts r = if decide (tag_set r ∩ dom user_counts ≠ ∅) then 1 else 0.
Proof.
  unfold bonus. pose proof (any_tag_in_true (tag_set r) user_counts) as H.
  destruct (any_tag_in _ _), (decide _) as [Hd|Hd]; try done.
  - exfalso. by apply Hd, H.
  - by apply H in Hd.
Qed.

(** ** The history boost *)

Lemma find_unique_title (recs : list item) x :
  NoDup (item_title <$> recs) → x ∈ recs →
  find (λ y, String.eqb (item_title y) (item_title x)) recs = Some x.
Proof.
  induction recs as [|y recs IH]; [by rewrite elem_of_nil|].
  rewrite fmap_cons, NoDup_cons, elem_of_cons. intros [Hy Hnd] [->|Hin]; simpl.
  - by rewrite String.eqb_refl.
  - destruct (String.eqb_spec (item_title y) (item_title x)) as [E|_]; [|by apply IH].
    exfalso. apply Hy. rewrite E. by apply list_elem_of_fmap_2.
Qed.

Lemma find_no_title (recs : list item) t :
  t ∉ item_title <$> recs →
  find (λ y, String.eqb (item_title y) t) recs = None.
Proof.
  induction recs as [|y recs IH]; [done|].
  rewrite fmap_cons, not_elem_of_cons. intros [Hne Hnin]; simpl.
  destruct (String.eqb_spec (item_title y) t) as [E|_]; [congruence|by apply IH].
Qed.

Section boost_props.
Context (resources : list resource) (Huniq : NoDup (title <$> resources)).
Context (nt : gset string) (recs : list item).
Context (Hrecs : recs ≡ₚ omap (score_one nt) resources).

Lemma same_title_same_resource r1 r2 :
  r1 ∈ resources → r2 ∈ resources → title r1 = title r2 → r1 = r2.
Proof using Huniq.
  clear Hrecs. induction resources as [|r rs IH]; [by rewrite elem_of_nil|].
  rewrite fmap_cons, NoDup_cons in Huniq. destruct Huniq as [Hr Hnd].
  rewrite !elem_of_cons. intros [->|H1] [->|H2] E; [done| | |by apply IH].
  - exfalso. apply Hr. rewrite E. by apply list_elem_of_fmap_2.
  - exfalso. apply Hr. rewrite <-E. by apply list_elem_of_fmap_2.
Qed.

Lemma recs_titles : item_title <$> recs ≡ₚ title <$> filter (λ r, tag_set r ∩ nt ≠ ∅) resources.
Proof using Hrecs.
  rewrite Hrecs, omap_score_one, <-list_fmap_compose. done.
Qed.

Lemma recs_titles_NoDup : NoDup (item_title <$> recs).
Proof using Huniq Hrecs.
  rewrite recs_titles. eapply sublist_NoDup; [exact Huniq|].
  apply fmap_sublist, sublist_filter.
Qed.

(** What the boost loop finds for a resource of the catalog is what the
    scoring loop made of it. *)
Lemma boost_one_score_one user_counts r :
  r ∈ resources →
  boost_one recs user_counts r
  = add_score (bonus user_counts r) <$> score_one nt r.
Proof using Huniq Hrecs.
  intros Hr. unfold boost_one.
  destruct (score_one nt r) as [x|] eqn:E.
  - assert (x ∈ recs) as Hx.
    { rewrite Hrecs. apply list_elem_of_omap. eauto. }
    assert (item_title x = title r) as Ht.
    { apply score_one_Some in E as [_ ->]. done. }
    rewrite <-Ht, find_unique_title; [done| |done].
    apply recs_titles_NoDup.
  - rewrite find_no_title; [done|]. rewrite recs_titles.
    intros (r' & Ht & [Hne Hr']%list_elem_of_filter)%list_elem_of_fmap.
    assert (r = r') as <- by by apply same_title_same_resource.
    by apply score_one_None in E.
Qed.

Lemma omap_boost_one user_counts :
  omap (boost_one recs user_counts) resources
  = (λ r, item_of r (overlap r nt + bonus user_counts r))
    <$> filter (λ r, tag_set r ∩ nt ≠ ∅) resources.
Proof using Huniq Hrecs.
  pose proof boost_one_score_one as Hone. clear Hrecs Huniq.
  induction resources as [|r rs IH]; [done|]. cbn [omap list_omap].
  rewrite Hone by left. rewrite IH by (intros; apply Hone; by right).
  rewrite filter_cons. destruct (decide (tag_set r ∩ nt ≠ ∅)) as [Hne|He].
  - by assert (score_one nt r = Some (item_of r (overlap r nt))) as ->
      by by apply score_one_Some.
  - assert (score_one nt r = None) as ->; [|done].
    apply score_one_None. by destruct (decide (tag_set r ∩ nt = ∅)).
Qed.

(** The boost keeps every entry of the ranked list and nothing else. *)
Lemma boost_titles user_counts :
  item_title <$> boost resources recs user_counts ≡ₚ item_title <$> recs.
Proof using Huniq Hrecs.
  unfold boost. rewrite py_sorted_perm, omap_boost_one, recs_titles.
  by rewrite <-list_fmap_compose.
Qed.
End boost_props.

Lemma score_resources_by_topics_perm resources ts :
  score_resources_by_topics resources ts
  ≡ₚ omap (score_one (normalized_topics ts)) resources.
Proof.
  unfold score_resources_by_topics.
  destruct (decide (normalized_topics ts = ∅)) as [->|_]; [|apply py_sorted_perm].
  induction resources as [|r rs IH]; [done|]. cbn [omap list_omap].
  assert (score_one ∅ r = None) as ->; [|done].
  apply score_one_None, (right_absorb_L ∅ (∩)).
Qed.

(** ** [/recommend] *)

Lemma score_resources_by_topics_ranked resources ts :
  ranked (score_resources_by_topics resources ts).
Proof.
  unfold score_resources_by_topics.
  destruct (decide _); [apply ranked_nil|apply py_sorted_ranked].
Qed.

(** The handler for an identified caller: the topics are recorded first,
    the counts are read from the new document, and the boost loop runs
    when the counts are not empty. *)
Lemma recommend_on_identified resources data st e ts :
  str_field data "email" = Some e →
  requested_topics data = JList ts →
  nonempty (lower (strip e)) = true →
  let email := lower (strip e) in
  let st' := record_user_topics st email ts in
  let user_counts := get_user_topic_counts st' email in
  let recs := score_resources_by_topics resources ts in
  recommend_on resources data st =
  (Ok (if decide (user_counts = ∅) then recs
       else boost resources recs user_counts), st').
Proof. intros He Hts Hne. unfold recommend_on. by rewrite He, Hts, Hne. Qed.

(** C5. The list of the scorer and the list that [/recommend] answers
    (boosted or not) are ranked: of two entries the earlier one has the
    higher score, or the same score and a title that is not the greater
    one in the lexicographic order of the code points; "Django Overview"
    is before "Flask Basics" at the same score. *)
Theorem recommendations_ranked :
  (∀ resources ts, ranked (score_resources_by_topics resources ts))
  ∧ (∀ resources data st,
       match (recommend_on resources data st).1 with
       | Ok recs => ranked recs
       | _ => True
       end)
  ∧ String.ltb "Django Overview" "Flask Basics" = true
  ∧ score_resources_by_topics SAMPLE_RESOURCES [JStr "web"] =
    [ Item "Django Overview" "Batteries-included web framework"
        "https://www.djangoproject.com/" 1;
      Item "Flask Basics" "Learn web development with Flask"
        "https://flask.palletsprojects.com/" 1 ].
Proof.
  split; [apply score_resources_by_topics_ranked|]. split; [|by vm_compute].
  intros resources data st. unfold recommend_on.
  destruct (str_field data "email") as [e|]; [|done].
  destruct (requested_topics data) as [| | | |ts|]; try done. simpl.
  destruct (decide _); [apply score_resources_by_topics_ranked|].
  apply py_sorted_ranked.
Qed.

(** C2. For an identified caller whose counts are not empty, [/recommend]
    answers the boosted list; the keys of the counts are the topics of the
    history, which is the history of before followed by the valid topics
    of the request. Whatever the counts are, the boosted list holds, up to
    the order, the resources of the base list, each with its overlap score
    plus 1 when one of its lowercased tags is a key of the counts
    (whatever its count) and plus 0 otherwise; it is ranked by the
    comparator of the scorer; and its titles are the titles of the base
    list, so that no resource comes back that the scorer left out. With
    the base list for "python" and the counts flask: 5, "Flask Basics"
    gets 2 and moves in front of the two entries that stay at 1. *)
Theorem recommend_history_boost
    (resources : list resource) (data : gmap string json)
    (st : gmap string user) (e : string) (ts : list json) :
  NoDup (title <$> resources) →
  str_field data "email" = Some e →
  requested_topics data = JList ts →
  nonempty (lower (strip e)) = true →
  let email := lower (strip e) in
  let st' := record_user_topics st email ts in
  let nt := normalized_topics ts in
  let recs := score_resources_by_topics resources ts in
  get_user_topic_counts st' email ≠ ∅ →
  recommend_on resources data st
  = (Ok (boost resources recs (get_user_topic_counts st' email)), st')
  ∧ dom (get_user_topic_counts st' email)
    = list_to_set (topics (get_user st' email))
  ∧ topics (get_user st' email)
    = (topics (get_user st email) ++ omap norm_topic ts)%list
  ∧ (∀ r s, s ∈ tag_set r ↔ ∃ tag, tag ∈ tags r ∧ s = lower tag)
  ∧ (∀ user_counts : gmap string Z,
      boost resources recs user_counts
      ≡ₚ (λ r, Item (title r) (description r) (link r)
                 (Z.of_nat (size (tag_set r ∩ nt))
                  + (if decide (tag_set r ∩ dom user_counts ≠ ∅) then 1 else 0)))
         <$> filter (λ r, tag_set r ∩ nt ≠ ∅) resources
      ∧ ranked (boost resources recs user_counts)
      ∧ item_title <$> boost resources recs user_counts ≡ₚ item_title <$> recs)
  ∧ boost SAMPLE_RESOURCES
      (score_resources_by_topics SAMPLE_RESOURCES [JStr "python"])
      {[ "flask" := 5 ]}
    = [ Item "Flask Basics" "Learn web development with Flask"
          "https://flask.palletsprojects.com/" 2;
        Item "Django Overview" "Batteries-included web framework"
          "https://www.djangoproject.com/" 1;
        Item "Pandas Intro" "Data analysis library"
          "https://pandas.pydata.org/" 1 ].
Proof.
  intros Huniq He Hts Hne email st' nt recs Hcounts.
  split; [|split; [apply dom_get_user_topic_counts|]].
  { rewrite (recommend_on_identified resources data st e ts) by done. simpl.
    fold email st'. by rewrite decide_False. }
  split; [unfold st'; by rewrite get_user_record_user_topics|].
  split; [apply elem_of_tag_set|]. split; [|by vm_compute].
  intros user_counts.
  pose proof (score_resources_by_topics_perm resources ts) as Hrecs.
  fold recs nt in Hrecs. split; [|split].
  - unfold boost.
    rewrite py_sorted_perm, (omap_boost_one resources Huniq nt recs Hrecs).
    match goal with |- ?a ≡ₚ ?b => assert (a = b) as ->; [|done] end.
    apply list_fmap_ext. intros _ r _.
    unfold item_of, overlap. by rewrite bonus_spec.
  - apply py_sorted_ranked.
  - by apply (boost_titles resources Huniq nt).
Qed.

Lemma recommend_history_boost_witness :
  recommend_on SAMPLE_RESOURCES request_python store_one_user
  = (Ok [ Item "Django Overview" "Batteries-included web framework"
            "https://www.djangoproject.com/" 2;
          Item "Flask Basics" "Learn web development with Flask"
            "https://flask.palletsprojects.com/" 2;
          Item "Pandas Intro" "Data analysis library"
            "https://pandas.pydata.org/" 2 ],
     {[ "u@x.io" := User ["data"; "python"] [] 0 ]})
  ∧ ∀ user_counts : gmap string Z,
      item_title <$> boost SAMPLE_RESOURCES
        (score_resources_by_topics SAMPLE_RESOURCES [JStr "python"]) user_counts
      ≡ₚ ["Django Overview"; "Flask Basics"; "Pandas Intro"].
Proof.
  destruct (recommend_history_boost SAMPLE_RESOURCES request_python
              store_one_user "U@x.io" [JStr "python"])
    as (H1 & _ & _ & _ & H2 & _).
  - apply (bool_decide_unpack _). vm_compute. exact I.
  - vm_compute. reflexivity.
  - vm_compute. reflexivity.
  - vm_compute. reflexivity.
  - vm_compute. discriminate.
  - split.
    + rewrite H1. vm_compute. reflexivity.
    + intros user_counts. destruct (H2 user_counts) as (_ & _ & H3).
      rewrite H3. vm_compute. reflexivity.
Defined.

Lemma rank_key_add_score b x y :
  key_leb (rank_key (add_score b x)) (rank_key (add_score b y))
  = key_leb (rank_key x) (rank_key y).
Proof.
  unfold key_leb, rank_key, add_score; simpl.
  destruct (Z.eqb_spec (- (score x + b)) (- (score y + b))),
    (Z.eqb_spec (- score x) (- score y)),
    (Z.ltb_spec (- (score x + b)) (- (score y + b))),
    (Z.ltb_spec (- score x) (- score y)); try done; lia.
Qed.

(** A body whose email is white space only: the email of the request is
    not the empty string, the request has a valid topic, and the handler
    answers the base list with its scores as they are and records
    nothing. *)
Lemma recommend_blank_email_not_boosted :
  request_blank_email_python !! "email" = Some (JStr "  ")
  ∧ "  " ≠ ""
  ∧ normalized_topics [JStr "python"] ≠ ∅
  ∧ score_resources_by_topics SAMPLE_RESOURCES [JStr "python"]
    = [ Item "Django Overview" "Batteries-included web framework"
          "https://www.djangoproject.com/" 1;
        Item "Flask Basics" "Learn web development with Flask"
          "https://flask.palletsprojects.com/" 1;
        Item "Pandas Intro" "Data analysis library"
          "https://pandas.pydata.org/" 1 ]
  ∧ recommend request_blank_email_python ∅
    = (Ok [ Item "Django Overview" "Batteries-included web framework"
              "https://www.djangoproject.com/" 1;
            Item "Flask Basics" "Learn web development with Flask"
              "https://flask.palletsprojects.com/" 1;
            Item "Pandas Intro" "Data analysis library"
              "https://pandas.pydata.org/" 1 ], ∅).
Proof.
  split; [by vm_compute|]. split; [done|]. split; [by vm_compute|].
  split; by vm_compute.
Qed.

(** C10, as the code has it. In one [/recommend] request with an email
    that is not empty once trimmed and with at least one valid topic, the
    topics of the request are in the history when the counts are read:
    the history is the one of before followed by the valid topics of the
    request, so every normalised topic is a key of the counts; every entry
    of the base list has a lowercased tag among them and gets the bonus,
    and the answer is the base list, in its order, each entry with its
    title, description and link and with its score raised by 1. For the
    topic "python" and a caller who searched "data" before, the three
    entries that score 1 are answered with 2, in the same order. *)
Theorem recommend_boost_uniform
    (resources : list resource) (data : gmap string json)
    (st : gmap string user) (e : string) (ts : list json) :
  NoDup (title <$> resources) →
  str_field data "email" = Some e →
  requested_topics data = JList ts →
  nonempty (lower (strip e)) = true →
  normalized_topics ts ≠ ∅ →
  let email := lower (strip e) in
  let st' := record_user_topics st email ts in
  topics (get_user st' email)
  = (topics (get_user st email) ++ omap norm_topic ts)%list
  ∧ normalized_topics ts ⊆ dom (get_user_topic_counts st' email)
  ∧ (∀ r s, s ∈ tag_set r ↔ ∃ tag, tag ∈ tags r ∧ s = lower tag)
  ∧ (∀ x, x ∈ score_resources_by_topics resources ts →
       ∃ r, r ∈ resources ∧ item_title x = title r
            ∧ tag_set r ∩ dom (get_user_topic_counts st' email) ≠ ∅)
  ∧ recommend_on resources data st
    = (Ok ((λ x, Item (item_title x) (item_description x) (item_link x)
                   (score x + 1))
           <$> score_resources_by_topics resources ts), st')
  ∧ recommend request_python store_one_user
    = (Ok [ Item "Django Overview" "Batteries-included web framework"
              "https://www.djangoproject.com/" 2;
            Item "Flask Basics" "Learn web development with Flask"
              "https://flask.palletsprojects.com/" 2;
            Item "Pandas Intro" "Data analysis library"
              "https://pandas.pydata.org/" 2 ],
       {[ "u@x.io" := User ["data"; "python"] [] 0 ]}).
Proof.
  intros Huniq He Hts Hne Hnt email st'.
  assert (normalized_topics ts ⊆ dom (get_user_topic_counts st' email)) as Hsub.
  { rewrite dom_get_user_topic_counts. unfold st'.
    rewrite get_user_record_user_topics. simpl.
    rewrite list_to_set_app_L. unfold normalized_topics. set_solver. }
  split; [unfold st'; by rewrite get_user_record_user_topics|].
  split; [exact Hsub|]. split; [apply elem_of_tag_set|].
  split; [|split; [|by vm_compute]].
  { intros x Hx. rewrite score_resources_by_topics_perm in Hx.
    apply list_elem_of_omap in Hx as (r & Hr & [Hmeet ->]%score_one_Some).
    exists r. split; [done|]. split; [done|]. set_solver. }
  rewrite (recommend_on_identified resources data st e ts) by done. simpl.
  fold email st'. f_equal. f_equal.
  rewrite decide_False.
  2:{ intros Hc. rewrite Hc, dom_empty_L in Hsub. set_solver. }
  pose proof (score_resources_by_topics_perm resources ts) as Hrecs.
  unfold boost.
  rewrite (omap_boost_one resources Huniq _ _ Hrecs).
  unfold score_resources_by_topics. rewrite decide_False by done.
  rewrite omap_score_one, <-(py_sorted_fmap rank_key rank_key (add_score 1))
    by apply rank_key_add_score.
  f_equal. rewrite <-list_fmap_compose. apply list_fmap_ext.
  intros i r Hr%list_elem_of_lookup_2%list_elem_of_filter. destruct Hr as [Hr _].
  simpl. rewrite bonus_spec, decide_True; [done|]. set_solver.
Qed.

Lemma recommend_boost_uniform_witness :
  recommend_on SAMPLE_RESOURCES request_python store_one_user
  = (Ok [ Item "Django Overview" "Batteries-included web framework"
            "https://www.djangoproject.com/" 2;
          Item "Flask Basics" "Learn web development with Flask"
            "https://flask.palletsprojects.com/" 2;
          Item "Pandas Intro" "Data analysis library"
            "https://pandas.pydata.org/" 2 ],
     {[ "u@x.io" := User ["data"; "python"] [] 0 ]}).
Proof.
  destruct (recommend_boost_uniform SAMPLE_RESOURCES request_python
              store_one_user "U@x.io" [JStr "python"])
    as (_ & _ & _ & _ & H & _).
  - apply (bool_decide_unpack _). vm_compute. exact I.
  - vm_compute. reflexivity.
  - vm_compute. reflexivity.
  - vm_compute. reflexivity.
  - vm_compute. discriminate.
  - rewrite H. vm_compute. reflexivity.
Defined.

(** ** [record_completion] *)

Lemma sorted_strings_perm l : sorted_strings l ≡ₚ l.
Proof. apply py_sorted_perm. Qed.


Lemma list_to_set_sorted_strings_elements (X : gset string) :
  list_to_set (sorted_strings (elements X)) = X.
Proof. rewrite sorted_strings_perm. apply list_to_set_elements_L. Qed.

Lemma NoDup_sorted_strings_elements (X : gset string) :
  NoDup (sorted_strings (elements X)).
Proof. rewrite sorted_strings_perm. apply NoDup_elements. Qed.

Lemma get_user_insert (st : gmap string user) e u email :
  get_user (<[e := u]> st) email
  = if decide (e = email) then u else get_user st email.
Proof. unfold get_user. rewrite lookup_insert. by destruct (decide _). Qed.

(** The record that [record_completion] writes and returns. *)
Lemma record_completion_user data email title award :
  let u := get_user data email in
  let titles : gset string := list_to_set (completed u) in
  record_completion data email title award
  = let u' :=
      if decide (title ∈ completed u)
      then User (topics u) (sorted_strings (elements titles)) (points u)
      else User (topics u) (sorted_strings (elements ({[title]} ∪ titles)))
             (points u + award) in
    (u', <[email := u']> data).
Proof.
  intros u titles. unfold record_completion. fold u titles.
  destruct (decide (title ∈ titles)) as [Hin|Hin];
    destruct (decide (title ∈ completed u)) as [Hin'|Hin']; try done.
  - exfalso. apply Hin'. by apply elem_of_list_to_set in Hin.
  - exfalso. apply Hin. by apply elem_of_list_to_set.
Qed.

Lemma record_completion_completed data email title award :
  (list_to_set (completed (record_completion data email title award).1) : gset string)
  = {[title]} ∪ list_to_set (completed (get_user data email)).
Proof.
  rewrite record_completion_user. simpl.
  destruct (decide _) as [Hin|Hin]; simpl;
    rewrite list_to_set_sorted_strings_elements; [|done].
  apply (elem_of_list_to_set (C := gset string)) in Hin. set_solver.
Qed.

Lemma record_completion_again data email title award u1 d1 :
  record_completion data email title award = (u1, d1) →
  record_completion d1 email title award = (u1, d1).
Proof.
  intros E.
  assert (title ∈ completed u1) as Hin.
  { apply (elem_of_list_to_set (C := gset string)).
    replace u1 with (record_completion data email title award).1 by by rewrite E.
    rewrite record_completion_completed. set_solver. }
  rewrite record_completion_user in E. simpl in E.
  injection E as Hu Hd.
  assert (User (topics u1)
            (sorted_strings (elements (list_to_set (completed u1) : gset string)))
            (points u1) = u1) as Hfix.
  { rewrite <-Hu. destruct (decide _); simpl;
      by rewrite list_to_set_sorted_strings_elements. }
  assert (get_user d1 email = u1) as Hget.
  { rewrite <-Hd, get_user_insert, decide_True by done. exact Hu. }
  rewrite record_completion_user. simpl.
  rewrite Hget, decide_True, Hfix by done. f_equal.
  rewrite <-Hd, Hu. apply insert_insert_eq.
Qed.


(** ** Points along a history *)

Lemma get_user_apply_op st o email :
  get_user (apply_op st o) email =
  match o with
  | RecordTopics e ts =>
      if decide (e = email)
      then User (topics (get_user st e) ++ omap norm_topic ts)
             (completed (get_user st e)) (points (get_user st e))
      else get_user st email
  | RecordCompletion e t =>
      if decide (e = email) then (record_completion st e t 10).1
      else get_user st email
  end.
Proof.
  destruct o as [e ts|e t]; simpl.
  - unfold record_user_topics. apply get_user_insert.
  - rewrite record_completion_user. simpl. apply get_user_insert.
Qed.

Lemma points_ok_record_completion st e t :
  points_ok (get_user st e) → points_ok (record_completion st e t 10).1.
Proof.
  intros [Hp Hnd]. rewrite record_completion_user. simpl.
  destruct (decide (t ∈ completed (get_user st e))) as [Hin|Hin];
    (split; [|apply NoDup_sorted_strings_elements]); simpl;
    rewrite sorted_strings_perm.
  - by rewrite elements_list_to_set.
  - rewrite elements_union_singleton, Hp.
    + simpl. rewrite elements_list_to_set by done. lia.
    + by rewrite elem_of_list_to_set.
Qed.

Lemma points_ok_apply_op st o :
  (∀ email, points_ok (get_user st email)) →
  ∀ email, points_ok (get_user (apply_op st o) email).
Proof.
  intros Hst email. rewrite get_user_apply_op.
  destruct o as [e ts|e t]; destruct (decide (e = email)); try done.
  - apply (Hst e).
  - apply points_ok_record_completion, Hst.
Qed.

Lemma points_ok_foldl ops st :
  (∀ email, points_ok (get_user st email)) →
  ∀ email, points_ok (get_user (foldl apply_op st ops) email).
Proof.
  revert st. induction ops as [|o ops IH]; intros st Hst; [done|].
  simpl. apply IH. by apply points_ok_apply_op.
Qed.

Lemma points_ok_run ops email : points_ok (get_user (run ops) email).
Proof.
  apply points_ok_foldl. intros e. unfold get_user. rewrite lookup_empty.
  split; [done|constructor].
Qed.

(** C4. In every document that the recording operations reach from the
    empty one, the points of a user are a non-negative integer, 10 times
    the number of distinct completed titles; one more operation raises the
    points of a user by exactly 10 when it is the completion, by this
    user, of a title that is new for this user, and leaves them unchanged
    otherwise, so they never go down. *)
Theorem points_per_distinct_title (ops : list op) :
  (∀ email,
     let u := get_user (run ops) email in
     0 ≤ points u
     ∧ NoDup (completed u)
     ∧ points u = 10 * Z.of_nat (size (list_to_set (completed u) : gset string)))
  ∧ (∀ o email,
       let before := get_user (run ops) email in
       let after := get_user (run (ops ++ [o])) email in
       points after
       = points before
         + match o with
           | RecordCompletion e t =>
               if decide (e = email ∧ t ∉ completed before) then 10 else 0
           | RecordTopics _ _ => 0
           end).
Proof.
  split.
  - intros email u. destruct (points_ok_run ops email) as [Hp Hnd]. fold u in Hp, Hnd.
    split; [lia|]. split; [done|]. by rewrite size_list_to_set.
  - intros o email before after. unfold after, run.
    rewrite foldl_snoc. fold (run ops). rewrite get_user_apply_op.
    destruct o as [e ts|e t].
    + destruct (decide (e = email)) as [->|_]; simpl; fold before; lia.
    + destruct (decide (e = email)) as [->|Hne].
      * rewrite record_completion_user. simpl. fold before.
        destruct (decide (t ∈ completed before)) as [Hin|Hin]; simpl.
        -- rewrite decide_False; [lia|]. by intros [_ ?].
        -- by rewrite decide_True.
      * fold before. rewrite decide_False; [lia|]. by intros [? _].
Qed.

(** ** [/next-topic] *)

(** C7. For an email that is not empty once trimmed, [/next-topic] answers
    "python" when the user has no topic history; otherwise it answers a
    topic of the history whose number of occurrences is the lowest, and
    among the topics with this number the least in the lexicographic
    order. With the history python, web, python (counts python 2, web 1)
    the answer is "web". *)
Theorem next_topic_least_practiced (arg : option string) (st : gmap string user) :
  let email := lower (strip (default "" arg)) in
  let history := topics (get_user st email) in
  nonempty email = true →
  (history = [] → next_topic arg st = Ok "python")
  ∧ (history ≠ [] →
     ∃ t, next_topic arg st = Ok t ∧ t ∈ history
          ∧ ∀ t', t' ∈ history →
              (occurrences t history < occurrences t' history)%nat
              ∨ (occurrences t history = occurrences t' history ∧ str_le t t'))
  ∧ next_topic (Some "u@x.io") store_python_web = Ok "web".
Proof.
  intros email history Hne. split; [|split; [|by vm_compute]].
  - intros Hh. unfold next_topic. fold email. rewrite Hne. simpl.
    rewrite decide_True; [done|]. by apply get_user_topic_counts_empty.
  - intros Hh. unfold next_topic. fold email. rewrite Hne. simpl.
    rewrite decide_False by by rewrite get_user_topic_counts_empty.
    set (counts := get_user_topic_counts st email).
    destruct (py_sorted count_key (map_to_list counts)) as [|[t c] rest] eqn:E.
    { exfalso. pose proof (py_sorted_perm count_key (map_to_list counts)) as Hp.
      rewrite E in Hp. apply Permutation_nil in Hp.
      apply map_to_list_empty_iff in Hp.
      by apply get_user_topic_counts_empty in Hp. }
    assert ((t, c) ∈ map_to_list counts) as Htc.
    { rewrite <-(elem_of_py_sorted count_key), E. by left. }
    apply elem_of_map_to_list in Htc. unfold counts in Htc.
    rewrite get_user_topic_counts_lookup in Htc. simpl in Htc. fold history in Htc.
    destruct (decide (t ∈ history)) as [Hin|]; [|done]. injection Htc as <-.
    exists t. split; [done|]. split; [done|]. intros t' Hin'.
    assert ((t', Z.of_nat (occurrences t' history)) ∈ map_to_list counts) as Ht'.
    { apply elem_of_map_to_list. unfold counts.
      rewrite get_user_topic_counts_lookup. simpl. fold history.
      by rewrite decide_True. }
    pose proof (py_sorted_head_least count_key _ _ _ _ E Ht') as Hle.
    unfold key_le, key_leb, count_key in Hle. simpl in Hle.
    destruct (Z.eqb_spec (Z.of_nat (occurrences t history))
                (Z.of_nat (occurrences t' history))) as [Heq|Hneq].
    + right. split; [lia|done].
    + left. apply Z.ltb_lt in Hle. lia.
Qed.

Lemma next_topic_least_practiced_witness :
  next_topic (Some " U@x.io ") store_python_web = Ok "web".
Proof.
  destruct (next_topic_least_practiced (Some " U@x.io ") store_python_web)
    as (_ & (t & -> & Hin & Hleast) & _).
  - vm_compute. reflexivity.
  - vm_compute. discriminate.
  - f_equal.
    assert (t ∈ ["python"; "web"; "python"]) as Hin' by exact Hin.
    destruct (Hleast "web") as [Hlt|[Heq _]].
    + vm_compute. by right; left.
    + apply elem_of_cons in Hin' as [->|Hin']; [vm_compute in Hlt; lia|].
      apply elem_of_cons in Hin' as [->|Hin']; [done|].
      apply elem_of_cons in Hin' as [->|Hin']; [vm_compute in Hlt; lia|].
      by apply elem_of_nil in Hin'.
    + apply elem_of_cons in Hin' as [->|Hin']; [vm_compute in Heq; lia|].
      apply elem_of_cons in Hin' as [->|Hin']; [done|].
      apply elem_of_cons in Hin' as [->|Hin']; [vm_compute in Heq; lia|].
      by apply elem_of_nil in Hin'.
Defined.

(** ** [/admin/popular] *)

Lemma occurrences_app t l1 l2 :
  occurrences t (l1 ++ l2) = (occurrences t l1 + occurrences t l2)%nat.
Proof. unfold occurrences. by rewrite filter_app, length_app. Qed.

Lemma occurrences_NoDup t l :
  NoDup l → occurrences t l = if decide (t ∈ l) then 1%nat else 0%nat.
Proof.
  induction 1 as [|x l Hx Hnd IH]; [done|].
  rewrite occurrences_cons, IH.
  destruct (decide (x = t)) as [->|Hne].
  - rewrite decide_False by done. by rewrite decide_True by left.
  - destruct (decide (t ∈ l)) as [Hin|Hin].
    + by rewrite decide_True by by right.
    + rewrite decide_False; [done|]. rewrite elem_of_cons. naive_solver.
Qed.

(** The two nested counting loops are one counting loop over all the
    completed titles. *)
Lemma count_loops_flatten (l : list (string * user)) m :
  foldl (λ acc eu, foldl bump acc (completed eu.2)) m l
  = foldl bump m (all_completed l).
Proof.
  revert m. induction l as [|eu l IH]; intros m; [done|].
  unfold all_completed. rewrite bind_cons, foldl_app. simpl. apply IH.
Qed.

Lemma occurrences_all_completed t (l : list (string * user)) :
  Forall (λ eu, NoDup (completed eu.2)) l →
  occurrences t (all_completed l)
  = length (filter (λ eu, t ∈ completed eu.2) l).
Proof.
  induction 1 as [|eu l Hnd _ IH]; [done|].
  unfold all_completed. rewrite bind_cons, occurrences_app, filter_cons.
  fold (all_completed l). rewrite IH, (occurrences_NoDup _ _ Hnd).
  by destruct (decide (t ∈ completed eu.2)).
Qed.

Lemma elem_of_all_completed t (l : list (string * user)) :
  t ∈ all_completed l ↔ (0 < length (filter (λ eu, t ∈ completed eu.2) l))%nat.
Proof.
  unfold all_completed. rewrite list_elem_of_bind. split.
  - intros (eu & Ht & Heu).
    assert (eu ∈ filter (λ eu, t ∈ completed eu.2) l) as Hf
      by by apply list_elem_of_filter.
    destruct (filter _ l); [by apply elem_of_nil in Hf|simpl; lia].
  - destruct (filter _ l) as [|eu f] eqn:E; simpl; [lia|]. intros _.
    assert (eu ∈ filter (λ eu, t ∈ completed eu.2) l) as Hf
      by (rewrite E; by left).
    apply list_elem_of_filter in Hf as [? ?]. by exists eu.
Qed.

(** In a document that the recording operations reach, no completed list
    has a title twice. *)
Lemma run_completed_NoDup ops :
  Forall (λ eu, NoDup (completed eu.2)) (map_to_list (run ops)).
Proof.
  apply Forall_forall. intros [e u] Heu%elem_of_map_to_list. simpl.
  destruct (points_ok_run ops e) as [_ Hnd].
  unfold get_user in Hnd. by rewrite Heu in Hnd.
Qed.

Lemma count_by_title_lookup ops t :
  count_by_title (run ops) !! t =
  if decide (0 < completions (run ops) t)%nat
  then Some (Z.of_nat (completions (run ops) t)) else None.
Proof.
  unfold count_by_title, completions.
  rewrite count_loops_flatten, foldl_bump_lookup, lookup_empty. simpl.
  rewrite <-(occurrences_all_completed t) by apply run_completed_NoDup.
  pose proof (elem_of_all_completed t (map_to_list (run ops))) as Hiff.
  rewrite <-(occurrences_all_completed t) in Hiff by apply run_completed_NoDup.
  destruct (decide (t ∈ _)) as [Hin|Hin], (decide (0 < _)%nat) as [Hpos|Hpos];
    try done.
  - by apply Hiff in Hin.
  - by apply Hiff in Hpos.
Qed.

Lemma key_order_popular_key x y : key_order popular_key x y ↔ popular_before x y.
Proof.
  unfold key_order, key_le, key_leb, popular_key, popular_before, str_le; simpl.
  destruct (Z.eqb_spec (- x.2) (- y.2)) as [E|E].
  - split; [intros H; right; split; [lia|done]|].
    intros [?|[_ ?]]; [lia|done].
  - rewrite Z.ltb_lt. split; [intros ?; left; lia|].
    intros [?|[? _]]; lia.
Qed.

(** C8. On a document that the recording operations reach, the list of
    [/admin/popular] has one entry for every title that some user has
    completed, with the number of users who completed it as its count, no
    title twice, the higher count first and equal counts by ascending
    title. After two users complete "Flask Basics" the list is the single
    entry ("Flask Basics", 2). *)
Theorem admin_popular_spec (ops : list op) :
  let st := run ops in
  (∀ t c, (t, c) ∈ admin_popular st
          ↔ (0 < completions st t)%nat ∧ c = Z.of_nat (completions st t))
  ∧ NoDup (admin_popular st).*1
  ∧ (∀ (i j : nat) x y, (i < j)%nat →
       admin_popular st !! i = Some x → admin_popular st !! j = Some y →
       popular_before x y)
  ∧ admin_popular (run [RecordCompletion "a@b.com" "Flask Basics";
                        RecordCompletion "c@d.com" "Flask Basics"])
    = [("Flask Basics", 2)].
Proof.
  intros st. split; [|split; [|split; [|by vm_compute]]].
  - intros t c. unfold admin_popular.
    rewrite elem_of_py_sorted, elem_of_map_to_list. unfold st.
    rewrite count_by_title_lookup.
    destruct (decide _) as [Hpos|Hpos]; [|naive_solver].
    split; [by intros [= <-]|by intros [_ ->]].
  - unfold admin_popular. rewrite py_sorted_perm. apply NoDup_fst_map_to_list.
  - intros i j x y Hij Hi Hj. apply key_order_popular_key.
    eapply (StronglySorted_lookup _ _ i j); [|done..].
    apply py_sorted_StronglySorted.
Qed.

(** ** The validation of [topics] in [/recommend] *)

(** A body with the empty string as [topics] and a single [topic]: the
    handler takes the single topic and answers the recommendations for it,
    with status 200. *)
Lemma recommend_falsy_topics_not_rejected :
  request_falsy_topics !! "topics" = Some (JStr "")
  ∧ (∀ l, JStr "" ≠ JList l)
  ∧ recommend request_falsy_topics ∅ =
    (Ok [ Item "Django Overview" "Batteries-included web framework"
            "https://www.djangoproject.com/" 1;
          Item "Flask Basics" "Learn web development with Flask"
            "https://flask.palletsprojects.com/" 1;
          Item "Pandas Intro" "Data analysis library"
            "https://pandas.pydata.org/" 1 ], ∅).
Proof. split; [by vm_compute|]. split; [done|by vm_compute]. Qed.

Lemma requested_topics_not_list data v :
  data !! "topics" = Some v → (∀ l, v ≠ JList l) →
  truthy v = true ∨ (∀ s, data !! "topic" ≠ Some (JStr s)) →
  requested_topics data = v.
Proof.
  intros Hv Hnl Hor. unfold requested_topics. rewrite Hv. simpl.
  destruct (truthy v) eqn:Ht; [done|].
  destruct Hor as [?|Hns]; [done|].
  destruct (data !! "topic") as [[| | |s| |]|]; try done.
  by destruct (Hns s).
Qed.

(** C9, as the code has it. For a body whose [email] is absent, falsy or a
    string: [/recommend] answers 400 when [topics] is there, is not a list,
    and is truthy or comes without a [topic] string. It takes the topics
    from a [topics] list that is not empty, or from a single [topic]
    string when [topics] is absent or falsy, and answers the
    recommendations whenever the topics it takes are a list. *)
Theorem recommend_topics_validation
    (data : gmap string json) (st : gmap string user) :
  is_Some (str_field data "email") →
  (∀ v, data !! "topics" = Some v → (∀ l, v ≠ JList l) →
        truthy v = true ∨ (∀ s, data !! "topic" ≠ Some (JStr s)) →
        recommend data st = (BadRequest "topics must be a list", st))
  ∧ (∀ ts, data !! "topics" = Some (JList ts) → ts ≠ [] →
           requested_topics data = JList ts)
  ∧ (∀ s, data !! "topics" = None
          ∨ (∃ v, data !! "topics" = Some v ∧ truthy v = false) →
          data !! "topic" = Some (JStr s) →
          requested_topics data = JList [JStr s])
  ∧ (∀ ts, requested_topics data = JList ts →
           ∃ recs st', recommend data st = (Ok recs, st')).
Proof.
  intros [e He]. split; [|split; [|split]].
  - intros v Hv Hnl Hor. unfold recommend, recommend_on.
    rewrite He, (requested_topics_not_list data v) by done.
    destruct v as [| | | |l|]; try done. by destruct (Hnl l).
  - intros ts Hts Hne. unfold requested_topics. rewrite Hts. simpl.
    by destruct ts.
  - intros s Hts Htopic. unfold requested_topics.
    destruct Hts as [->|(v & -> & Hf)]; simpl.
    + by rewrite Htopic.
    + by rewrite Hf, Htopic.
  - intros ts Hts. unfold recommend, recommend_on. rewrite He, Hts. eauto.
Qed.

Lemma recommend_topics_validation_witness :
  recommend request_string_topics ∅ = (BadRequest "topics must be a list", ∅).
Proof.
  destruct (recommend_topics_validation request_string_topics ∅) as [H _].
  - vm_compute. eauto.
  - apply (H (JStr "python")).
    + vm_compute. reflexivity.
    + intros l. discriminate.
    + left. vm_compute. reflexivity.
Defined.

(** ** The iteration order of dicts and sets

    The model reads a dict through [map_to_list] and a set through
    [elements]. Python iterates them in another order (insertion order for
    a dict); the outcomes below are the same for every order. *)

Lemma occurrences_perm t l1 l2 : l1 ≡ₚ l2 → occurrences t l1 = occurrences t l2.
Proof. intros H. unfold occurrences. by rewrite H. Qed.

Lemma foldl_bump_perm m l1 l2 : l1 ≡ₚ l2 → foldl bump m l1 = foldl bump m l2.
Proof.
  intros H. apply map_eq. intros k. rewrite !foldl_bump_lookup.
  rewrite (occurrences_perm k l1 l2 H).
  destruct (decide (k ∈ l1)) as [H1|H1], (decide (k ∈ l2)) as [H2|H2]; try done.
  - by rewrite H in H1.
  - by rewrite <-H in H2.
Qed.

Lemma count_by_title_any_order (st : gmap string user) (l : list (string * user)) :
  l ≡ₚ map_to_list st →
  foldl (λ acc eu, foldl bump acc (completed eu.2)) ∅ l = count_by_title st.
Proof.
  intros H. unfold count_by_title. rewrite !count_loops_flatten.
  apply foldl_bump_perm. unfold all_completed. by rewrite H.
Qed.

Lemma admin_popular_any_order (st : gmap string user) (l : list (string * Z)) :
  l ≡ₚ map_to_list (count_by_title st) →
  py_sorted popular_key l = admin_popular st.
Proof.
  intros H. apply py_sorted_perm_invariant; [|done].
  intros [t1 c1] [t2 c2] _ _. unfold popular_key. simpl.
  intros [= ? ->]. f_equal. lia.
Qed.

Lemma next_topic_any_order (counts : gmap string Z) (l : list (string * Z)) :
  l ≡ₚ map_to_list counts →
  py_sorted count_key l = py_sorted count_key (map_to_list counts).
Proof.
  intros H. apply py_sorted_perm_invariant; [|done].
  intros [t1 c1] [t2 c2] _ _. unfold count_key. simpl. by intros [= -> ->].
Qed.

Lemma sorted_strings_any_order (X : gset string) (l : list string) :
  l ≡ₚ elements X → sorted_strings l = sorted_strings (elements X).
Proof.
  intros H. apply py_sorted_perm_invariant; [|done].
  intros s1 s2 _ _. by intros [= ->].
Qed.

(** * Further properties of the code *)

(** ** The activity recorder *)

Lemma norm_topic_normalised t n : norm_topic t = Some n → normalised n.
Proof.
  intros H. split.
  - destruct t as [| | |s| |]; simpl in H; try done.
    destruct (nonempty (strip s)) eqn:E; [|done]. injection H as <-.
    apply nonempty_true. by rewrite nonempty_lower.
  - pose proof (norm_topic_fixed t n H) as Hfix. simpl in Hfix.
    destruct (nonempty (strip n)); [|done]. by injection Hfix.
Qed.

(** X1. Recording topics only appends to the history of this one user:
    the entries that come in are the valid topics of the request in their
    normalised form, in the order of the request and with their
    repetitions; the completed list and the points of the user and the
    records of the other users stay as they are; and recording one list
    after another is recording their concatenation. *)
Theorem record_user_topics_appends
    (st : gmap string user) (email : string) (ts1 ts2 : list json) :
  let st' := record_user_topics st email ts1 in
  topics (get_user st' email)
  = (topics (get_user st email) ++ omap norm_topic ts1)%list
  ∧ Forall normalised (omap norm_topic ts1)
  ∧ completed (get_user st' email) = completed (get_user st email)
  ∧ points (get_user st' email) = points (get_user st email)
  ∧ (∀ other, other ≠ email → st' !! other = st !! other)
  ∧ record_user_topics st' email ts2
    = record_user_topics st email (ts1 ++ ts2)%list.
Proof.
  intros st'. unfold st'. rewrite get_user_record_user_topics. simpl.
  split; [done|]. split.
  { apply Forall_forall. intros n (t & _ & Hn)%list_elem_of_omap.
    by eapply norm_topic_normalised. }
  split; [done|]. split; [done|]. split.
  - intros other Hne. unfold record_user_topics. by rewrite lookup_insert_ne.
  - unfold record_user_topics at 1. rewrite get_user_record_user_topics. simpl.
    unfold record_user_topics. by rewrite insert_insert_eq, omap_app, (assoc_L (++)).
Qed.

Global Instance total_count_perm : Proper ((≡ₚ) ==> (=)) total_count.
Proof.
  intros l1 l2 H. induction H as [|x l1 l2 _ IH|x y l|l1 l2 l3 _ IH1 _ IH2]; simpl.
  - done.
  - by rewrite IH.
  - lia.
  - by rewrite IH1.
Qed.

Lemma total_count_bump m t :
  total_count (map_to_list (bump m t)) = total_count (map_to_list m) + 1.
Proof.
  unfold bump. destruct (m !! t) as [c|] eqn:E; simpl.
  - rewrite <-insert_delete_eq, map_to_list_insert by apply lookup_delete_eq.
    rewrite <-(map_to_list_delete m t c E). simpl. lia.
  - rewrite map_to_list_insert by done. simpl. lia.
Qed.

Lemma total_count_foldl_bump l m :
  total_count (map_to_list (foldl bump m l))
  = total_count (map_to_list m) + Z.of_nat (length l).
Proof.
  revert m. induction l as [|t l IH]; intros m; simpl; [lia|].
  rewrite IH, total_count_bump. lia.
Qed.

(** X2. The counts of a user have one key for every distinct topic of the
    history, each with a count of at least 1, and they add up to the
    length of the history. *)
Theorem topic_counts_total (st : gmap string user) (email : string) :
  let counts := get_user_topic_counts st email in
  let history := topics (get_user st email) in
  dom counts = list_to_set history
  ∧ (∀ t c, counts !! t = Some c → 1 ≤ c ∧ c = Z.of_nat (occurrences t history))
  ∧ total_count (map_to_list counts) = Z.of_nat (length history).
Proof.
  intros counts history. split; [apply dom_get_user_topic_counts|]. split.
  - intros t c. unfold counts. rewrite get_user_topic_counts_lookup. simpl.
    fold history. destruct (decide (t ∈ history)) as [Hin|]; [|done].
    intros [= <-]. apply occurrences_pos in Hin. lia.
  - unfold counts, get_user_topic_counts. fold history.
    rewrite total_count_foldl_bump, map_to_list_empty. simpl. lia.
Qed.

(** The record and the document of [record_completion], in one form for
    a title that is new and for one that is not. *)
Lemma record_completion_normal st e t a :
  record_completion st e t a =
  let u := get_user st e in
  let u' := User (topics u)
              (sorted_strings
                 (elements ({[t]} ∪ list_to_set (completed u) : gset string)))
              (points u + if decide (t ∈ completed u) then 0 else a) in
  (u', <[e := u']> st).
Proof.
  rewrite record_completion_user. simpl.
  destruct (decide (t ∈ completed (get_user st e))) as [Hin|Hin]; [|done].
  assert ({[t]} ∪ list_to_set (completed (get_user st e))
          = (list_to_set (completed (get_user st e)) : gset string)) as ->.
  { apply (elem_of_list_to_set (C := gset string)) in Hin. set_solver. }
  by rewrite Z.add_0_r.
Qed.

(** X3. [record_completion] changes nothing but the completed list and the
    points of this one user: the topics of the user and the records of the
    other users stay, and no title leaves the completed list. *)
Theorem record_completion_frame
    (st : gmap string user) (email title : string) (award : Z) :
  let r := record_completion st email title award in
  get_user r.2 email = r.1
  ∧ topics r.1 = topics (get_user st email)
  ∧ (∀ t, t ∈ completed (get_user st email) → t ∈ completed r.1)
  ∧ (∀ other, other ≠ email → r.2 !! other = st !! other).
Proof.
  intros r. unfold r. rewrite record_completion_normal. simpl.
  split; [by rewrite get_user_insert, decide_True|]. split; [done|]. split.
  - intros t Ht. rewrite sorted_strings_perm, elem_of_elements.
    apply (elem_of_list_to_set (C := gset string)) in Ht. set_solver.
  - intros other Hne. by rewrite lookup_insert_ne.
Qed.

(** X4. Two completions commute: whatever the users and the titles, the
    document after both does not depend on which one came first. *)
Theorem record_completion_commute
    (st : gmap string user) (e1 t1 e2 t2 : string) (award : Z) :
  (record_completion (record_completion st e1 t1 award).2 e2 t2 award).2
  = (record_completion (record_completion st e2 t2 award).2 e1 t1 award).2.
Proof.
  rewrite !record_completion_normal. simpl.
  rewrite !get_user_insert.
  destruct (decide (e1 = e2)) as [->|Hne].
  - rewrite ?(decide_True (P := e2 = e2)) by done. simpl.
    rewrite !insert_insert_eq, !list_to_set_sorted_strings_elements.
    set (S := list_to_set (completed (get_user st e2)) : gset string).
    assert ({[t2]} ∪ ({[t1]} ∪ S) = {[t1]} ∪ ({[t2]} ∪ S)) as -> by set_solver.
    f_equal. f_equal.
    assert (∀ a b : string, a ∈ sorted_strings (elements ({[b]} ∪ S))
                            ↔ a = b ∨ a ∈ completed (get_user st e2)) as Hmem.
    { intros a b. rewrite sorted_strings_perm, elem_of_elements.
      unfold S. rewrite elem_of_union, elem_of_singleton, elem_of_list_to_set.
      done. }
    pose proof (Hmem t2 t1) as H21. pose proof (Hmem t1 t2) as H12.
    destruct (decide (t1 = t2)) as [->|Ht]; [done|].
    destruct (decide (t1 ∈ completed (get_user st e2))) as [H1|H1],
      (decide (t2 ∈ completed (get_user st e2))) as [H2|H2],
      (decide (t2 ∈ sorted_strings _)) as [H3|H3],
      (decide (t1 ∈ sorted_strings _)) as [H4|H4];
      try lia; exfalso; naive_solver.
  - rewrite ?(decide_False (P := e1 = e2)) by done.
    rewrite ?(decide_False (P := e2 = e1)) by done.
    by rewrite insert_insert_ne.
Qed.

Lemma total_points_all_completed (l : list (string * user)) :
  Forall (λ eu, points_ok eu.2) l →
  foldr (λ eu acc, points eu.2 + acc) 0 l
  = 10 * Z.of_nat (length (all_completed l)).
Proof.
  induction 1 as [|eu l [Hp _] _ IH]; [done|].
  unfold all_completed. rewrite bind_cons, length_app. fold (all_completed l).
  simpl. rewrite IH, Hp. lia.
Qed.

Lemma run_points_ok ops :
  Forall (λ eu, points_ok eu.2) (map_to_list (run ops)).
Proof.
  apply Forall_forall. intros [e u] Heu%elem_of_map_to_list. simpl.
  pose proof (points_ok_run ops e) as H.
  unfold get_user in H. by rewrite Heu in H.
Qed.

(** X5. On every document that the recording operations reach, the counts
    of [/admin/popular] add up to the number of completions of all users,
    and 10 times this sum is the sum of the points of all users. *)
Theorem popular_counts_total (ops : list op) :
  total_count (admin_popular (run ops))
  = Z.of_nat (length (all_completed (map_to_list (run ops))))
  ∧ 10 * total_count (admin_popular (run ops)) = total_points (run ops).
Proof.
  assert (total_count (admin_popular (run ops))
          = Z.of_nat (length (all_completed (map_to_list (run ops))))) as H.
  { unfold admin_popular. rewrite py_sorted_perm. unfold count_by_title.
    rewrite count_loops_flatten, total_count_foldl_bump, map_to_list_empty.
    simpl. lia. }
  split; [exact H|]. rewrite H. unfold total_points.
  by rewrite total_points_all_completed by apply run_points_ok.
Qed.

(** ** More on [/recommend] *)

Lemma sample_titles_NoDup : NoDup (title <$> SAMPLE_RESOURCES).
Proof. apply (bool_decide_unpack _). by vm_compute. Qed.

Lemma boost_nil resources user_counts : boost resources [] user_counts = [].
Proof.
  unfold boost. by induction resources as [|r rs IH].
Qed.

(** When every normalised topic of the request is a key of the counts,
    every entry of the base list gets the bonus and the order stays. *)
Lemma boost_all_bonus resources ts (user_counts : gmap string Z) :
  NoDup (title <$> resources) →
  normalized_topics ts ≠ ∅ →
  normalized_topics ts ⊆ dom user_counts →
  boost resources (score_resources_by_topics resources ts) user_counts
  = add_score 1 <$> score_resources_by_topics resources ts.
Proof.
  intros Huniq Hnt Hsub.
  pose proof (score_resources_by_topics_perm resources ts) as Hrecs.
  unfold boost. rewrite (omap_boost_one resources Huniq _ _ Hrecs).
  unfold score_resources_by_topics. rewrite decide_False by done.
  rewrite omap_score_one, <-(py_sorted_fmap rank_key rank_key (add_score 1))
    by apply rank_key_add_score.
  f_equal. rewrite <-list_fmap_compose. apply list_fmap_ext.
  intros i r Hr%list_elem_of_lookup_2%list_elem_of_filter. destruct Hr as [Hr _].
  rewrite bonus_spec, decide_True; [done|]. set_solver.
Qed.

Lemma recorded_topics_counted st email ts :
  normalized_topics ts
  ⊆ dom (get_user_topic_counts (record_user_topics st email ts) email).
Proof.
  rewrite dom_get_user_topic_counts, get_user_record_user_topics. simpl.
  rewrite list_to_set_app_L. unfold normalized_topics. set_solver.
Qed.

(** The document that [/recommend] leaves. *)
Lemma recommend_on_document resources data st :
  (recommend_on resources data st).2 =
  match str_field data "email", requested_topics data with
  | Some e, JList ts =>
      if nonempty (lower (strip e))
      then record_user_topics st (lower (strip e)) ts else st
  | _, _ => st
  end.
Proof.
  unfold recommend_on. destruct (str_field data "email") as [e|]; [|done].
  by destruct (requested_topics data).
Qed.

(** X6. The answer of [/recommend] does not depend on the document: the
    history that is stored for the caller, or for anyone, never changes
    which resources are recommended, their scores or their order. *)
Theorem recommend_answer_ignores_document
    (data : gmap string json) (st1 st2 : gmap string user) :
  (recommend data st1).1 = (recommend data st2).1.
Proof.
  unfold recommend, recommend_on.
  destruct (str_field data "email") as [e|]; [|done].
  destruct (requested_topics data) as [| | | |ts|]; try done. simpl.
  destruct (nonempty (lower (strip e))) eqn:Hne; [|done].
  f_equal. destruct (decide (normalized_topics ts = ∅)) as [He|Hnt].
  - assert (score_resources_by_topics SAMPLE_RESOURCES ts = []) as ->.
    { unfold score_resources_by_topics. by rewrite decide_True. }
    rewrite !boost_nil. by repeat destruct (decide _).
  - assert (∀ st, get_user_topic_counts
                    (record_user_topics st (lower (strip e)) ts) (lower (strip e))
                  ≠ ∅) as Hc.
    { intros st Hc. pose proof (recorded_topics_counted st (lower (strip e)) ts) as Hs.
      rewrite Hc, dom_empty_L in Hs. set_solver. }
    rewrite !decide_False by apply Hc.
    rewrite !boost_all_bonus;
      auto using sample_titles_NoDup, recorded_topics_counted.
Qed.

(** X7. [/recommend] writes nothing but topics: for every user the
    completed list and the points stay and the old history is a prefix of
    the new one; the document stays as it is when the answer is an error
    and when the email of the request is absent, falsy or blank. *)
Theorem recommend_writes_topics_only
    (data : gmap string json) (st : gmap string user) :
  let st' := (recommend data st).2 in
  (∀ email,
     completed (get_user st' email) = completed (get_user st email)
     ∧ points (get_user st' email) = points (get_user st email)
     ∧ topics (get_user st email) `prefix_of` topics (get_user st' email))
  ∧ ((∀ recs, (recommend data st).1 ≠ Ok recs) → st' = st)
  ∧ (∀ e, str_field data "email" = Some e →
          nonempty (lower (strip e)) = false → st' = st).
Proof.
  intros st'. unfold st', recommend. rewrite recommend_on_document.
  split; [|split].
  - intros email. destruct (str_field data "email") as [e|]; [|done].
    destruct (requested_topics data) as [| | | |ts|]; try done.
    destruct (nonempty (lower (strip e))); [|done].
    unfold record_user_topics. rewrite get_user_insert.
    destruct (decide (lower (strip e) = email)) as [<-|_]; [|done].
    simpl. split; [done|]. split; [done|]. by eexists.
  - intros Herr. unfold recommend_on in Herr.
    destruct (str_field data "email") as [e|]; [|done].
    destruct (requested_topics data) as [| | | |ts|]; try done.
    exfalso. by eapply Herr.
  - intros e -> Hblank. rewrite Hblank. by destruct (requested_topics data).
Qed.

(** ** [/complete], [/summary], [/next-topic] and [/login] *)

(** X8. [/complete] is idempotent up to the spelling of the request: after
    an accepted request, a request whose email is the same once trimmed
    and lowercased and whose title is the same once trimmed gets the same
    answer and leaves the document as it is. *)
Theorem complete_again_any_spelling
    (d1 d2 : gmap string json) (st : gmap string user) (e1 t1 e2 t2 : string) :
  str_field d1 "email" = Some e1 → str_field d1 "title" = Some t1 →
  str_field d2 "email" = Some e2 → str_field d2 "title" = Some t2 →
  lower (strip e1) = lower (strip e2) → strip t1 = strip t2 →
  nonempty (lower (strip e1)) = true → nonempty (strip t1) = true →
  complete d2 (complete d1 st).2 = complete d1 st.
Proof.
  intros He1 Ht1 He2 Ht2 He Ht Hne Hnt. unfold complete.
  rewrite He1, Ht1, He2, Ht2, <-He, <-Ht, Hne, Hnt. simpl.
  destruct (record_completion st (lower (strip e1)) (strip t1) 10)
    as [u st'] eqn:E. simpl.
  by rewrite (record_completion_again _ _ _ _ _ _ E).
Qed.

Lemma complete_again_any_spelling_witness :
  complete request_complete_padded (complete request_complete ∅).2
  = complete request_complete ∅.
Proof.
  apply (complete_again_any_spelling request_complete request_complete_padded ∅
           "a@b.com" "Flask Basics" " A@B.com " "  Flask Basics ");
    vm_compute; reflexivity.
Defined.

(** X9. [/summary] reads what [/complete] wrote: after an accepted
    [/complete], the summary of the same user, under any spelling of the
    email, has the points and the completed list of the answer of
    [/complete], and the topics that the user had before. *)
Theorem summary_after_complete
    (data : gmap string json) (st : gmap string user) (e t e' : string) :
  str_field data "email" = Some e → str_field data "title" = Some t →
  nonempty (lower (strip e)) = true → nonempty (strip t) = true →
  lower (strip e') = lower (strip e) →
  ∃ u, summary (Some e') (complete data st).2 = Ok u
       ∧ (complete data st).1 = Ok (points u, completed u)
       ∧ topics u = topics (get_user st (lower (strip e))).
Proof.
  intros He Ht Hne Hnt He'. unfold complete, summary. simpl.
  rewrite He, Ht, He', Hne, Hnt. simpl.
  rewrite record_completion_normal. simpl.
  rewrite get_user_insert, decide_True by done. by eexists.
Qed.

Lemma summary_after_complete_witness :
  ∃ u, summary (Some " A@B.com ") (complete request_complete ∅).2 = Ok u
       ∧ (complete request_complete ∅).1 = Ok (points u, completed u)
       ∧ topics u = topics (get_user ∅ (lower (strip "a@b.com"))).
Proof.
  apply (summary_after_complete request_complete ∅ "a@b.com" "Flask Basics");
    vm_compute; reflexivity.
Defined.

(** X10. [/summary] reads what [/recommend] wrote: after a request of an
    identified caller, the topics of the summary are the topics of before
    followed by the valid topics of the request in their normalised form,
    and the points and the completed list are those of before. *)
Theorem summary_after_recommend
    (data : gmap string json) (st : gmap string user) (e : string)
    (ts : list json) :
  str_field data "email" = Some e →
  nonempty (lower (strip e)) = true →
  requested_topics data = JList ts →
  let old := get_user st (lower (strip e)) in
  summary (Some e) (recommend data st).2
  = Ok (User (topics old ++ omap norm_topic ts) (completed old) (points old)).
Proof.
  intros He Hne Hts old. unfold recommend.
  rewrite recommend_on_document, He, Hts, Hne.
  unfold summary. simpl. rewrite Hne. simpl.
  by rewrite get_user_record_user_topics.
Qed.

Lemma summary_after_recommend_witness :
  summary (Some "U@x.io") (recommend request_python store_one_user).2
  = Ok (User ["data"; "python"] [] 0).
Proof.
  apply (summary_after_recommend request_python store_one_user "U@x.io"
           [JStr "python"]); vm_compute; reflexivity.
Defined.

(** X11. [/next-topic] never fails on its [items[0]]: the answer is never
    a server error, whatever the email and the document. *)
Theorem next_topic_never_fails (arg : option string) (st : gmap string user) :
  next_topic arg st ≠ ServerError.
Proof.
  unfold next_topic.
  destruct (negb _); [done|].
  destruct (decide _) as [|Hne]; [done|].
  destruct (py_sorted count_key _) as [|kv rest] eqn:E; [|done].
  exfalso. apply Hne. apply map_to_list_empty_iff, Permutation_nil.
  by rewrite <-E, py_sorted_perm.
Qed.

(** X12. [/login] takes the email as it comes: an email of white space
    only, with any truthy password, is accepted and echoed by [/login],
    while [/complete], [/summary] and [/next-topic] reject the same email
    with status 400 and [/recommend] treats the caller as anonymous. *)
Theorem blank_email_login_only
    (data : gmap string json) (st : gmap string user) (e : string) (pw : json) :
  data !! "email" = Some (JStr e) → data !! "password" = Some pw →
  e ≠ "" → strip e = "" → truthy pw = true →
  is_Some (str_field data "title") →
  login data = Ok ("demo-token", JStr e)
  ∧ complete data st = (BadRequest "email and title are required", st)
  ∧ summary (Some e) st = BadRequest "email is required"
  ∧ next_topic (Some e) st = BadRequest "email is required"
  ∧ (recommend data st).2 = st.
Proof.
  intros He Hpw Hne Hblank Htruthy [t Ht].
  assert (nonempty e = true) as Hn by by apply nonempty_true.
  assert (str_field data "email" = Some e) as Hf.
  { unfold str_field. rewrite He. simpl. by rewrite Hn. }
  split; [|split; [|split; [|split]]].
  - unfold login. rewrite He, Hpw. simpl. by rewrite Hn, Htruthy.
  - unfold complete. by rewrite Hf, Ht, Hblank.
  - unfold summary. simpl. by rewrite Hblank.
  - unfold next_topic. simpl. by rewrite Hblank.
  - unfold recommend. rewrite recommend_on_document, Hf, Hblank. simpl.
    by destruct (requested_topics data).
Qed.

Lemma blank_email_login_only_witness :
  login request_blank_email = Ok ("demo-token", JStr "  ")
  ∧ complete request_blank_email ∅
    = (BadRequest "email and title are required", ∅).
Proof.
  destruct (blank_email_login_only request_blank_email ∅ "  " (JStr "x"))
    as (H1 & H2 & _).
  - vm_compute. reflexivity.
  - vm_compute. reflexivity.
  - discriminate.
  - vm_compute. reflexivity.
  - vm_compute. reflexivity.
  - vm_compute. eauto.
  - split; [exact H1|exact H2].
Defined.

(** ** The documents that the handlers write *)

Lemma normalised_email e :
  nonempty (lower (strip e)) = true → normalised (lower (strip e)).
Proof.
  intros H. split; [by apply nonempty_true|].
  by rewrite strip_lower, strip_idemp, lower_idemp.
Qed.

Lemma trimmed_title t : nonempty (strip t) = true → trimmed (strip t).
Proof. intros H. split; [by apply nonempty_true|apply strip_idemp]. Qed.

Lemma doc_ok_get_user st email :
  doc_ok st →
  Forall normalised (topics (get_user st email))
  ∧ Forall trimmed (completed (get_user st email)).
Proof.
  intros Hok. unfold get_user.
  destruct (st !! email) as [u|] eqn:E; simpl; [|by split].
  destruct (Hok email u E) as (_ & ? & ? & _). by split.
Qed.

Lemma run_snoc ops o : run (ops ++ [o]) = apply_op (run ops) o.
Proof. unfold run. by rewrite foldl_snoc. Qed.

Lemma run_points ops email u :
  run ops !! email = Some u → points u = 10 * Z.of_nat (length (completed u)).
Proof.
  intros E. destruct (points_ok_run ops email) as [Hp _].
  unfold get_user in Hp. by rewrite E in Hp.
Qed.

Lemma serve_recommend_ok st ops data :
  doc_ok st → st = run ops →
  doc_ok (serve st (PostRecommend data))
  ∧ ∃ ops', serve st (PostRecommend data) = run ops'.
Proof.
  intros Hok Hrun. simpl. unfold recommend. rewrite recommend_on_document.
  destruct (str_field data "email") as [e|]; [|by eauto].
  destruct (requested_topics data) as [| | | |ts|]; try by eauto.
  destruct (nonempty (lower (strip e))) eqn:Hne; [|by eauto].
  assert (record_user_topics st (lower (strip e)) ts
          = run (ops ++ [RecordTopics (lower (strip e)) ts])) as Hrun'.
  { by rewrite run_snoc, <-Hrun. }
  split; [|by eauto]. intros email u Hu.
  split; [|split; [|split]]; try by (rewrite Hrun' in Hu; eapply run_points).
  - unfold record_user_topics in Hu. rewrite lookup_insert in Hu.
    destruct (decide (lower (strip e) = email)) as [<-|_].
    + by apply normalised_email.
    + by destruct (Hok email u Hu).
  - unfold record_user_topics in Hu. rewrite lookup_insert in Hu.
    destruct (doc_ok_get_user st (lower (strip e)) Hok) as [Ht _].
    destruct (decide (lower (strip e) = email)) as [<-|_].
    + injection Hu as <-. simpl. apply Forall_app. split; [done|].
      apply Forall_forall. intros n (t & _ & Hn)%list_elem_of_omap.
      by eapply norm_topic_normalised.
    + by destruct (Hok email u Hu) as (_ & ? & _).
  - unfold record_user_topics in Hu. rewrite lookup_insert in Hu.
    destruct (doc_ok_get_user st (lower (strip e)) Hok) as [_ Hc].
    destruct (decide (lower (strip e) = email)) as [<-|_].
    + by injection Hu as <-.
    + by destruct (Hok email u Hu) as (_ & _ & ? & _).
Qed.

Lemma serve_complete_ok st ops data :
  doc_ok st → st = run ops →
  doc_ok (serve st (PostComplete data))
  ∧ ∃ ops', serve st (PostComplete data) = run ops'.
Proof.
  intros Hok Hrun. simpl. unfold complete.
  destruct (str_field data "email") as [e|]; [|by eauto].
  destruct (str_field data "title") as [t|]; [|by eauto].
  destruct (nonempty (lower (strip e))) eqn:Hne; simpl; [|by eauto].
  destruct (nonempty (strip t)) eqn:Hnt; simpl; [|by eauto].
  assert ((record_completion st (lower (strip e)) (strip t) 10).2
          = run (ops ++ [RecordCompletion (lower (strip e)) (strip t)])) as Hrun'.
  { by rewrite run_snoc, <-Hrun. }
  destruct (record_completion st (lower (strip e)) (strip t) 10)
    as [u' st'] eqn:E. simpl in *.
  split; [|by eauto]. intros email u Hu.
  split; [|split; [|split]]; try by (rewrite Hrun' in Hu; eapply run_points).
  all: rewrite record_completion_normal in E; simpl in E;
    injection E as <- <-; rewrite lookup_insert in Hu;
    destruct (doc_ok_get_user st (lower (strip e)) Hok) as [Ht Hc];
    destruct (decide (lower (strip e) = email)) as [<-|_].
  - by apply normalised_email.
  - by destruct (Hok email u Hu).
  - by injection Hu as <-.
  - by destruct (Hok email u Hu) as (_ & ? & _).
  - injection Hu as <-. simpl.
    apply Forall_forall. intros x. rewrite sorted_strings_perm, elem_of_elements.
    rewrite elem_of_union, elem_of_singleton, elem_of_list_to_set.
    intros [->|Hx]; [by apply trimmed_title|].
    rewrite Forall_forall in Hc. by apply Hc.
  - by destruct (Hok email u Hu) as (_ & _ & ? & _).
Qed.

Lemma foldl_serve_ok reqs st ops :
  doc_ok st → st = run ops →
  doc_ok (foldl serve st reqs) ∧ ∃ ops', foldl serve st reqs = run ops'.
Proof.
  revert st ops. induction reqs as [|req reqs IH]; intros st ops Hok Hrun.
  { split; [done|by eauto]. }
  simpl. destruct req as [data|data].
  - destruct (serve_recommend_ok st ops data Hok Hrun) as [Hok' [ops' Hrun']].
    by apply (IH _ ops').
  - destruct (serve_complete_ok st ops data Hok Hrun) as [Hok' [ops' Hrun']].
    by apply (IH _ ops').
Qed.

(** X13. Whatever requests [/recommend] and [/complete] have served from
    the empty document: every key of the document is an email that is not
    empty, trimmed and lowercase; every topic of a history is not empty,
    trimmed and lowercase; every completed title is not empty and trimmed;
    the points of a user are 10 times the length of the completed list;
    and the document is one that the recording operations reach. *)
Theorem served_documents_ok (reqs : list request) :
  doc_ok (serve_all reqs) ∧ ∃ ops, serve_all reqs = run ops.
Proof.
  apply (foldl_serve_ok reqs ∅ []); [|done].
  intros email u Hu. by rewrite lookup_empty in Hu.
Qed.

(** ** More on the scorer *)

Lemma elem_of_score_resources_by_topics resources ts x :
  x ∈ score_resources_by_topics resources ts ↔
  ∃ r, r ∈ resources
       ∧ tag_set r ∩ normalized_topics ts ≠ ∅
       ∧ x = item_of r (overlap r (normalized_topics ts)).
Proof.
  rewrite score_resources_by_topics_perm, list_elem_of_omap.
  split; intros (r & Hr & H); exists r; (split; [done|]); by apply score_one_Some.
Qed.

Lemma size_list_to_set_le (l : list string) :
  (size (list_to_set l : gset string) ≤ length l)%nat.
Proof.
  induction l as [|a l IH]; [by rewrite list_to_set_nil, size_empty|].
  rewrite list_to_set_cons, size_union_alt, size_singleton. simpl.
  assert (size (list_to_set l ∖ {[a]} : gset string)
          ≤ size (list_to_set l : gset string))%nat; [|lia].
  apply subseteq_size. set_solver.
Qed.

(** X14. More topics never lower a score and never drop a resource: when
    the normalised topics of one request are among those of another, every
    entry of the first answer is in the second one with a score that is at
    least as high. *)
Theorem more_topics_never_lower
    (resources : list resource) (ts1 ts2 : list json) (x : item) :
  normalized_topics ts1 ⊆ normalized_topics ts2 →
  x ∈ score_resources_by_topics resources ts1 →
  ∃ y, y ∈ score_resources_by_topics resources ts2
       ∧ item_title y = item_title x
       ∧ item_description y = item_description x
       ∧ item_link y = item_link x
       ∧ score x ≤ score y.
Proof.
  intros Hsub (r & Hr & Hne & ->)%elem_of_score_resources_by_topics.
  exists (item_of r (overlap r (normalized_topics ts2))).
  split; [|split; [done|split; [done|split; [done|]]]].
  - apply elem_of_score_resources_by_topics. exists r.
    split; [done|]. split; [|done]. set_solver.
  - simpl. unfold overlap. apply inj_le, subseteq_size. set_solver.
Qed.

Lemma more_topics_never_lower_witness :
  ∃ y, y ∈ score_resources_by_topics SAMPLE_RESOURCES [JStr "data"; JStr " Python "]
       ∧ item_title y = "Pandas Intro"
       ∧ item_description y = "Data analysis library"
       ∧ item_link y = "https://pandas.pydata.org/"
       ∧ 1 ≤ score y.
Proof.
  apply (more_topics_never_lower SAMPLE_RESOURCES [JStr "python"]
           [JStr "data"; JStr " Python "]
           (Item "Pandas Intro" "Data analysis library"
              "https://pandas.pydata.org/" 1)).
  - apply (bool_decide_unpack _). vm_compute. exact I.
  - assert (score_resources_by_topics SAMPLE_RESOURCES [JStr "python"] =
            [ Item "Django Overview" "Batteries-included web framework"
                "https://www.djangoproject.com/" 1;
              Item "Flask Basics" "Learn web development with Flask"
                "https://flask.palletsprojects.com/" 1;
              Item "Pandas Intro" "Data analysis library"
                "https://pandas.pydata.org/" 1 ]) as ->
      by (vm_compute; reflexivity).
    repeat constructor.
Defined.

(** X15. The ranked list has no more entries than the catalog has
    resources, and the score of an entry is at least 1, at most the number
    of topics of the request and at most the number of tags of its
    resource. *)
Theorem score_bounds (resources : list resource) (ts : list json) :
  (length (score_resources_by_topics resources ts) ≤ length resources)%nat
  ∧ ∀ x, x ∈ score_resources_by_topics resources ts →
      1 ≤ score x ≤ Z.of_nat (length ts)
      ∧ ∃ r, r ∈ resources ∧ item_title x = title r
             ∧ score x ≤ Z.of_nat (length (tags r)).
Proof.
  split.
  - rewrite score_resources_by_topics_perm.
    induction resources as [|r rs IH]; [done|]. cbn [omap list_omap].
    destruct (score_one _ r); simpl; lia.
  - intros x (r & Hr & Hne & ->)%elem_of_score_resources_by_topics. simpl.
    apply overlap_pos in Hne. unfold overlap in *.
    assert (size (tag_set r ∩ normalized_topics ts) ≤ size (normalized_topics ts))%nat
      as H1 by (apply subseteq_size; set_solver).
    assert (size (tag_set r ∩ normalized_topics ts) ≤ size (tag_set r))%nat
      as H2 by (apply subseteq_size; set_solver).
    pose proof (size_list_to_set_le (omap norm_topic ts)) as H3.
    pose proof (size_list_to_set_le (lower <$> tags r)) as H4.
    rewrite length_fmap in H4.
    assert (length (omap norm_topic ts) ≤ length ts)%nat as H5.
    { clear. induction ts as [|t ts IH]; [done|]. cbn [omap list_omap].
      destruct (norm_topic t); simpl; lia. }
    unfold normalized_topics, tag_set in *.
    split; [lia|]. exists r. split; [done|]. split; [done|lia].
Qed.

(** ** [/summarize] *)

Lemma str_app_cons x (a b : string) : (String x a ++ b)%string = String x (a ++ b).
Proof. done. Qed.

Lemma str_app_assoc (a b c : string) : ((a ++ b) ++ c = a ++ (b ++ c))%string.
Proof.
  induction a as [|x a IH]; [done|]. rewrite !str_app_cons. by f_equal.
Qed.

Lemma has_char_app c (a b : string) :
  has_char c (a ++ b) = has_char c a || has_char c b.
Proof.
  induction a as [|x a IH]; [done|]. rewrite str_app_cons. simpl.
  by rewrite IH, orb_assoc.
Qed.

Lemma has_char_lstrip c s : has_char c s = false → has_char c (lstrip s) = false.
Proof.
  induction s as [|x s IH]; simpl; [done|].
  intros [? ?]%orb_false_elim. destruct (is_space x); [by apply IH|].
  simpl. by apply orb_false_intro.
Qed.

Lemma has_char_rstrip c s : has_char c s = false → has_char c (rstrip s) = false.
Proof.
  induction s as [|x s IH]; simpl; [done|].
  intros [Hx Hs]%orb_false_elim. specialize (IH Hs).
  destruct (rstrip s) as [|y r].
  - destruct (is_space x); simpl; [done|]. by rewrite Hx.
  - simpl in *. by rewrite Hx, IH.
Qed.

Lemma has_char_strip c s : has_char c s = false → has_char c (strip s) = false.
Proof. intros H. by apply has_char_rstrip, has_char_lstrip. Qed.

Lemma split_on_nonempty sep s : split_on sep s ≠ [].
Proof.
  destruct s as [|x s]; simpl; [done|].
  destruct (Ascii.eqb x sep); [done|]. by destruct (split_on sep s).
Qed.

(** No piece of a split has the separator. *)
Lemma split_on_no_sep sep s :
  Forall (λ p, has_char sep p = false) (split_on sep s).
Proof.
  induction s as [|x s IH]; simpl; [by repeat constructor|].
  destruct (Ascii.eqb x sep) eqn:E; [by constructor|].
  destruct (split_on sep s) as [|p ps]; [by repeat constructor; simpl; rewrite E|].
  apply Forall_cons in IH as [Hp Hps]. constructor; [|done].
  simpl. by rewrite E, Hp.
Qed.

(** A character that is not in a string is in none of its pieces. *)
Lemma split_on_no_char c sep s :
  has_char c s = false → Forall (λ p, has_char c p = false) (split_on sep s).
Proof.
  induction s as [|x s IH]; simpl; [by repeat constructor|].
  intros [Hx Hs]%orb_false_elim. specialize (IH Hs).
  destruct (Ascii.eqb x sep); [by constructor|].
  destruct (split_on sep s) as [|p ps]; [by repeat constructor; simpl; rewrite Hx|].
  apply Forall_cons in IH as [Hp Hps]. constructor; [|done].
  simpl. by rewrite Hx, Hp.
Qed.

Lemma has_char_replace_char a b s :
  a ≠ b → has_char a (replace_char a b s) = false.
Proof.
  intros Hab. induction s as [|x s IH]; simpl; [done|]. rewrite IH.
  destruct (Ascii.eqb_spec x a) as [->|Hx].
  - destruct (Ascii.eqb_spec b a); [congruence|done].
  - by destruct (Ascii.eqb_spec x a).
Qed.

Lemma replace_char_fixed a b s : has_char a s = false → replace_char a b s = s.
Proof.
  induction s as [|x s IH]; simpl; [done|].
  intros [-> Hs]%orb_false_elim. by rewrite IH.
Qed.

Lemma sentence_of_Some p s :
  sentence_of p = Some s ↔ s = strip p ∧ strip p ≠ "".
Proof.
  unfold sentence_of. rewrite <-nonempty_true.
  destruct (nonempty (strip p)); split; try done.
  - by intros [= <-].
  - by intros [-> _].
  - by intros [_ ?].
Qed.

Lemma sentences_are_sentences text : Forall is_sentence (sentences text).
Proof.
  apply Forall_forall. intros s (p & Hp & [-> Hne]%sentence_of_Some)%list_elem_of_omap.
  pose proof (split_on_no_sep "." (replace_char "010" " " text)) as Hdot.
  assert ("010"%char ≠ " "%char) as Hab by done.
  pose proof (split_on_no_char "010" "." (replace_char "010" " " text)
                (has_char_replace_char "010" " " text Hab)) as Hnl.
  rewrite Forall_forall in Hdot, Hnl.
  split; [done|]. split; [apply strip_idemp|].
  split; apply has_char_strip; auto.
Qed.

Lemma ends_with_char_absent c s : has_char c s = false → ends_with_char c s = false.
Proof.
  induction s as [|x s IH]; simpl; [done|].
  intros [Hx Hs]%orb_false_elim. destruct s; [done|]. by apply IH.
Qed.

Lemma ends_with_char_app c (a b : string) :
  b ≠ "" → ends_with_char c (a ++ b) = ends_with_char c b.
Proof.
  intros Hb. induction a as [|x a IH]; [done|].
  change (ends_with_char c (String x (a ++ b)) = ends_with_char c b).
  destruct (a ++ b)%string as [|y r] eqn:E; [|by rewrite <-IH].
  destruct a; simpl in E; [done|discriminate].
Qed.

Lemma nonempty_app_l (a b : string) : a ≠ "" → nonempty (a ++ b) = true.
Proof. by destruct a. Qed.

(** The first two sentences joined: not empty, with no period at the
    end. *)
Lemma joined_sentences l :
  Forall is_sentence l → l ≠ [] →
  nonempty (String.concat ". " (take 2 l)) = true
  ∧ ends_with_char "." (String.concat ". " (take 2 l)) = false.
Proof.
  intros Hl Hne. destruct l as [|s1 [|s2 l]]; [done| |].
  - apply Forall_cons in Hl as [(H1 & _ & Hd & _) _]. simpl.
    split; [by apply nonempty_true|by apply ends_with_char_absent].
  - apply Forall_cons in Hl as [(H1 & _) Hl].
    apply Forall_cons in Hl as [(H2 & _ & Hd & _) _].
    change (String.concat ". " (take 2 (s1 :: s2 :: l)))
      with (s1 ++ (". " ++ s2))%string.
    split; [by apply nonempty_app_l|].
    rewrite ends_with_char_app by done.
    change (". " ++ s2)%string with (("." ++ " ") ++ s2)%string.
    rewrite ends_with_char_app by done. by apply ends_with_char_absent.
Qed.

Lemma summarize_text_sentences text :
  sentences text ≠ [] →
  summarize_text text
  = (String.concat ". " (take 2 (sentences text)) ++ ".")%string.
Proof.
  intros Hne. unfold summarize_text.
  destruct (joined_sentences (sentences text) (sentences_are_sentences text) Hne)
    as [-> ->]. simpl.
  destruct (String.concat ". " (take 2 (sentences text))); [done|done].
Qed.

Lemma sentences_nonempty_text t :
  sentences (strip t) ≠ [] → nonempty (strip t) = true.
Proof. destruct (strip t); [done|done]. Qed.

(** X16. When the text has a sentence, the summary of [/summarize] is its
    first two sentences (the only one when there is one) joined by a
    period and a space, with one period at the end: the test for a period
    at the end never finds one, because a sentence is a trimmed piece
    between periods, not empty, with no period and no newline in it. *)
Theorem summarize_sentences (data : gmap string json) (t : string) :
  str_field data "text" = Some t →
  sentences (strip t) ≠ [] →
  summarize data
  = Ok (String.concat ". " (take 2 (sentences (strip t))) ++ ".")%string
  ∧ Forall is_sentence (sentences (strip t)).
Proof.
  intros Ht Hne. split; [|apply sentences_are_sentences].
  unfold summarize. rewrite Ht, (sentences_nonempty_text t Hne). simpl.
  by rewrite summarize_text_sentences.
Qed.

Lemma split_on_app_sep sep (a b : string) :
  has_char sep a = false →
  split_on sep (a ++ String sep b) = a :: split_on sep b.
Proof.
  induction a as [|x a IH].
  - intros _. change (split_on sep (String sep b) = "" :: split_on sep b).
    simpl. by rewrite Ascii.eqb_refl.
  - rewrite str_app_cons. simpl. intros [Hx Ha]%orb_false_elim.
    by rewrite Hx, (IH Ha).
Qed.

Lemma rstrip_app_last c (a : string) :
  is_space c = false → rstrip (a ++ String c "") = (a ++ String c "")%string.
Proof.
  intros Hc. induction a as [|x a IH].
  - change (rstrip (String c "") = String c ""). simpl. by rewrite Hc.
  - rewrite str_app_cons. simpl. rewrite IH.
    by destruct a.
Qed.

Lemma sentence_no_leading_space s : is_sentence s → no_leading_space s.
Proof.
  intros (_ & <- & _). apply rstrip_no_leading_space, lstrip_no_leading_space.
Qed.

Lemma no_leading_space_app (a b : string) :
  a ≠ "" → no_leading_space a → no_leading_space (a ++ b).
Proof. by destruct a. Qed.

Lemma sentence_of_sentence s : is_sentence s → sentence_of s = Some s.
Proof.
  intros (Hne & Hs & _). unfold sentence_of. rewrite Hs.
  apply nonempty_true in Hne. by rewrite Hne.
Qed.

(** A summary of sentences is trimmed, and its sentences are those it was
    made of. *)
Lemma summary_of_sentences (joined : string) l :
  Forall is_sentence l → (length l ≤ 2)%nat → l ≠ [] →
  joined = String.concat ". " l →
  strip (joined ++ ".") = (joined ++ ".")%string
  ∧ sentences (joined ++ ".") = l.
Proof.
  intros Hl Hlen Hne ->.
  destruct l as [|s1 [|s2 [|s3 l]]]; [done| | |simpl in Hlen; lia].
  - apply Forall_cons in Hl as [H1 _].
    pose proof H1 as (Hne1 & Hs1 & Hd1 & Hn1). simpl.
    split.
    + unfold strip. rewrite lstrip_fixed
        by (apply no_leading_space_app; [done|by apply sentence_no_leading_space]).
      by apply rstrip_app_last.
    + unfold sentences. rewrite replace_char_fixed
        by (by rewrite has_char_app, Hn1).
      rewrite split_on_app_sep by done. simpl.
      by rewrite sentence_of_sentence.
  - apply Forall_cons in Hl as [H1 Hl]. apply Forall_cons in Hl as [H2 _].
    pose proof H1 as (Hne1 & Hs1 & Hd1 & Hn1).
    pose proof H2 as (Hne2 & Hs2 & Hd2 & Hn2).
    change (String.concat ". " [s1; s2]) with (s1 ++ (". " ++ s2))%string.
    assert (((s1 ++ (". " ++ s2)) ++ ".")%string
            = (s1 ++ String "." (String " " s2 ++ String "." ""))%string) as Hform.
    { by rewrite str_app_assoc. }
    split.
    + unfold strip. rewrite lstrip_fixed
        by (rewrite str_app_assoc; apply no_leading_space_app;
            [done|by apply sentence_no_leading_space]).
      by apply rstrip_app_last.
    + rewrite Hform. unfold sentences. rewrite replace_char_fixed.
      2:{ rewrite has_char_app, Hn1. simpl.
          change (has_char "010" (String " " s2 ++ ".")%string = false).
          by rewrite has_char_app; simpl; rewrite Hn2. }
      rewrite split_on_app_sep by done.
      rewrite split_on_app_sep by (simpl; by rewrite Hd2).
      cbn [omap list_omap split_on]. rewrite sentence_of_sentence by done.
      assert (sentence_of (String " " s2) = Some s2) as ->; [|done].
      unfold sentence_of.
      change (strip (String " " s2)) with (strip s2). rewrite Hs2.
      apply nonempty_true in Hne2. by rewrite Hne2.
Qed.

(** X17. [/summarize] is idempotent on texts that have a sentence: the
    summary of a summary is this summary. *)
Theorem summarize_idempotent (data : gmap string json) (t out : string) :
  str_field data "text" = Some t →
  sentences (strip t) ≠ [] →
  summarize data = Ok out →
  summarize {[ "text" := JStr out ]} = Ok out.
Proof.
  intros Ht Hne Hout. unfold summarize in Hout.
  rewrite Ht, (sentences_nonempty_text t Hne) in Hout. simpl in Hout.
  rewrite summarize_text_sentences in Hout by done. injection Hout as <-.
  set (l := take 2 (sentences (strip t))).
  assert (Forall is_sentence l) as Hl
    by apply Forall_take, sentences_are_sentences.
  assert (length l ≤ 2)%nat as Hlen by (unfold l; rewrite length_take; lia).
  assert (l ≠ []) as Hl0 by (unfold l; by destruct (sentences (strip t))).
  destruct (summary_of_sentences _ l Hl Hlen Hl0 eq_refl) as [Hstrip Hsent].
  assert (nonempty (String.concat ". " l ++ ".") = true) as Hn.
  { by destruct (String.concat ". " l). }
  unfold summarize, str_field. rewrite lookup_singleton_eq. simpl.
  rewrite Hn, Hstrip, Hn. simpl. f_equal.
  rewrite summarize_text_sentences by by rewrite Hsent.
  rewrite Hsent. by rewrite take_ge by done.
Qed.

Lemma summarize_idempotent_witness :
  summarize {[ "text" := JStr "First point. Second  one." ]}
  = Ok "First point. Second  one.".
Proof.
  apply (summarize_idempotent request_three_sentences "  First point.
Second  one. Third.  ").
  - vm_compute. reflexivity.
  - vm_compute. discriminate.
  - vm_compute. reflexivity.
Defined.

Lemma lstrip_empty_iff s : lstrip s = "" ↔ all_chars is_space s = true.
Proof.
  induction s as [|x s IH]; simpl; [done|].
  destruct (is_space x); simpl; [done|]. split; discriminate.
Qed.

Lemma rstrip_empty s : no_leading_space s → rstrip s = "" → s = "".
Proof.
  destruct s as [|x s]; simpl; [done|]. intros ->.
  by destruct (rstrip s).
Qed.

Lemma strip_empty_iff s : strip s = "" ↔ all_chars is_space s = true.
Proof.
  rewrite <-lstrip_empty_iff. unfold strip. split.
  - apply rstrip_empty, lstrip_no_leading_space.
  - by intros ->.
Qed.

Lemma sentence_of_None p : sentence_of p = None ↔ all_chars is_space p = true.
Proof.
  rewrite <-strip_empty_iff. unfold sentence_of.
  destruct (strip p); simpl; split; done.
Qed.

Lemma omap_nil_iff {A B} (f : A → option B) (l : list A) :
  omap f l = [] ↔ Forall (λ x, f x = None) l.
Proof.
  induction l as [|x l IH]; [by split; [constructor|]|]. cbn [omap list_omap].
  rewrite Forall_cons, <-IH. destruct (f x); split; try done.
  - by intros [? _].
  - by intros [_ ?].
Qed.

(** The pieces of a split are blank exactly when the string is made of
    separators and white space. *)
Lemma split_on_blank_iff sep s :
  Forall (λ p, all_chars is_space p = true) (split_on sep s)
  ↔ all_chars (λ c, Ascii.eqb c sep || is_space c) s = true.
Proof.
  induction s as [|x s IH]; simpl; [by split; [|repeat constructor]|].
  destruct (Ascii.eqb x sep); simpl.
  - split.
    + intros [_ H]%Forall_cons. by apply IH.
    + intros H. constructor; [done|]. by apply IH.
  - pose proof (split_on_nonempty sep s) as Hne.
    destruct (split_on sep s) as [|p ps]; [done|]. split.
    + intros [[Hx Hp]%andb_true_iff Hps]%Forall_cons.
      apply andb_true_iff. split; [done|]. apply IH. by constructor.
    + intros [Hx [Hp Hps]%IH%Forall_cons]%andb_true_iff.
      constructor; [|done]. simpl. by rewrite Hx, Hp.
Qed.

Lemma all_chars_replace_newline s :
  all_chars period_or_space (replace_char "010" " " s)
  = all_chars period_or_space s.
Proof.
  induction s as [|x s IH]; simpl; [done|]. rewrite IH. f_equal.
  by destruct (Ascii.eqb_spec x "010") as [->|_].
Qed.

Lemma sentences_nil_iff text :
  sentences text = [] ↔ all_chars period_or_space text = true.
Proof.
  unfold sentences. rewrite omap_nil_iff, <-all_chars_replace_newline.
  rewrite <-(split_on_blank_iff "."). apply Forall_iff. intros p.
  apply sentence_of_None.
Qed.

Lemma length_str_take n s : (String.length (str_take n s) ≤ n)%nat.
Proof.
  revert s. induction n as [|n IH]; intros [|x s]; simpl; try lia.
  specialize (IH s). lia.
Qed.

(** X18. When the text has no sentence, which is when it is made of
    periods and white space only, the summary of [/summarize] is the
    trimmed text cut after its first 160 characters; it is not empty. *)
Theorem summarize_fallback (data : gmap string json) (t : string) :
  str_field data "text" = Some t →
  nonempty (strip t) = true →
  (sentences (strip t) = [] ↔ all_chars period_or_space (strip t) = true)
  ∧ (sentences (strip t) = [] →
     summarize data = Ok (str_take 160 (strip t))
     ∧ (String.length (str_take 160 (strip t)) ≤ 160)%nat
     ∧ str_take 160 (strip t) ≠ "").
Proof.
  intros Ht Hne. split; [apply sentences_nil_iff|].
  intros Hnil. split; [|split; [apply length_str_take|]].
  - unfold summarize. rewrite Ht, Hne. simpl.
    unfold summarize_text. by rewrite Hnil.
  - by destruct (strip t).
Qed.

Lemma summarize_fallback_witness :
  summarize request_periods = Ok ". ..".
Proof.
  destruct (summarize_fallback request_periods " . .. ") as [_ H].
  - vm_compute. reflexivity.
  - vm_compute. reflexivity.
  - destruct H as [H _]; [vm_compute; reflexivity|]. exact H.
Defined.

(** X19. A summary that [/summarize] answers is never the empty string. *)
Theorem summarize_never_empty (data : gmap string json) (out : string) :
  summarize data = Ok out → out ≠ "".
Proof.
  unfold summarize. destruct (str_field data "text") as [t|]; [|done].
  destruct (nonempty (strip t)) eqn:Hne; simpl; [|done]. intros [= <-].
  destruct (decide (sentences (strip t) = [])) as [Hnil|Hs].
  - unfold summarize_text. rewrite Hnil. simpl. by destruct (strip t).
  - rewrite summarize_text_sentences by done.
    by destruct (String.concat ". " (take 2 (sentences (strip t)))).
Qed.

Lemma summarize_never_empty_witness :
  summarize request_three_sentences = Ok "First point. Second  one."
  ∧ "First point. Second  one." ≠ "".
Proof.
  assert (summarize request_three_sentences = Ok "First point. Second  one.")
    as H by (vm_compute; reflexivity).
  split; [exact H|].
  exact (summarize_never_empty request_three_sentences _ H).
Defined.

Lemma summarize_sentences_witness :
  summarize request_three_sentences
  = Ok (String.concat ". "
          (take 2 (sentences (strip "  First point.
Second  one. Third.  "))) ++ ".")%string.
Proof.
  destruct (summarize_sentences request_three_sentences "  First point.
Second  one. Third.  ") as [H _].
  - vm_compute. reflexivity.
  - vm_compute. discriminate.
  - exact H.
Defined.

(** X20. When the titles of the catalog are distinct, so are the titles
    of the ranked list: no resource is listed twice. *)
Theorem ranked_titles_distinct (resources : list resource) (ts : list json) :
  NoDup (title <$> resources) →
  NoDup (item_title <$> score_resources_by_topics resources ts).
Proof.
  intros Huniq.
  apply (recs_titles_NoDup resources Huniq (normalized_topics ts)).
  apply score_resources_by_topics_perm.
Qed.

Lemma ranked_titles_distinct_witness :
  NoDup (item_title <$> score_resources_by_topics SAMPLE_RESOURCES [JStr "python"]).
Proof.
  apply ranked_titles_distinct.
  apply (bool_decide_unpack _). vm_compute. exact I.
Defined.
